(** * Parallel merge sort (mergesort.c): model and verification

    The program sorts a global [int] array [A] in place, using a global
    scratch array [B] of the same length.  [merge] combines two adjacent
    sorted index ranges, [my_mergesort] is the serial recursion, and
    [parallel_mergesort] hands the two halves of a range to two new
    threads while [level < cutoff], joins them and merges.

    Modelling choices.

    - The two global arrays form the [state]; an access outside an array
      is a fault (the C behaviour is undefined there).
    - [int] values are integers of [Z]; index arithmetic that leaves the
      32-bit range is a fault too (signed overflow is undefined in C).
    - The program is written once, as a tree of memory accesses
      ([prog]): a load, a store, or a fork of two threads followed by
      their join ([pthread_create] twice, then [pthread_join] twice; the
      parent touches no array in between).  It has two readings: [run]
      executes the children of a fork one after the other, and [step]
      is the interleaving semantics, in which any thread that is not
      blocked in a join may perform its next memory access.  The two are
      related by [all_runs_sequential]: every schedule of a program
      whose threads keep to disjoint index ranges, and all of whose
      threads the process can hold, is free of data races and ends in
      the state computed by [run].  Interleaving single accesses is the
      meaning C gives to a program without data races.
    - An array cell holds an [elt] whose integer is read with [key]; the
      program only ever compares keys.  The C program is the instance
      [elt := Z], [key := id].  Keeping the cell type abstract lets two
      cells with the same integer be told apart, which is what the
      stability of [merge] is about.
    - The heap cell of a [struct argument] is not modelled, only its
      value.  What is modelled is that creating a child can fail: the
      process can hold [capacity] threads at once, each child with the
      descriptor that [buildArgs] allocates for it.  The code checks
      neither the result of [malloc] nor that of [pthread_create], and
      goes on to [pthread_join] both thread handles; so a fan-out that
      is reached when fewer than two more threads fit is an undefined
      operation ([starved], a case of [faulty]).  The results about the
      threaded sort carry the hypothesis that [capacity] is at least
      [2 ^ (cutoff - level + 1) - 1], the number of threads that can
      exist at once. *)

From Stdlib Require Import ZArith List Lia Bool Sorted Permutation Wellfounded.
From Equations Require Import Equations.
Import ListNotations.
Open Scope Z_scope.

Set Implicit Arguments.

(** ** Machine integers *)

Definition int_min : Z := -2147483648.
Definition int_max : Z := 2147483647.

Definition in_int (z : Z) : bool := (int_min <=? z) && (z <=? int_max).

(** ** The range descriptor [struct argument] and its constructor *)

Record argument : Type := mk_argument { left : Z; right : Z; level : Z }.

Definition buildArgs (l r lv : Z) : argument :=
  {| left := l; right := r; level := lv |}.

(** [left + (right - left) / 2]; C division truncates toward zero. *)
Definition midpoint (l r : Z) : Z := l + (r - l) ÷ 2.

(** The two descriptors built by a fan-out step on [a]:
    [leftArg = buildArgs(left, mid, level + 1)] and
    [rightArg = buildArgs(mid + 1, right, level + 1)]. *)
Definition leftArg (a : argument) : argument :=
  buildArgs (left a) (midpoint (left a) (right a)) (level a + 1).

Definition rightArg (a : argument) : argument :=
  buildArgs (midpoint (left a) (right a) + 1) (right a) (level a + 1).

Definition inspect {X : Type} (x : X) : {y : X | x = y} := exist _ x eq_refl.

(** Both halves of a split are shorter than the range: the measure of the
    recursive definitions below. *)
Ltac split_decreases :=
  unfold leftArg, rightArg; simpl;
  match goal with
  | e : (?l >=? ?r) = false |- _ =>
      rewrite Z.geb_leb in e; apply Z.leb_gt in e;
      unfold midpoint;
      pose proof (Z.quot_rem' (r - l) 2);
      pose proof (Z.rem_bound_pos (r - l) 2)
  end; lia.

Inductive arr : Set := ArrA | ArrB.

Section Program.

Variable elt : Type.
Variable key : elt -> Z.

(** How many threads the process can hold at once, the calling thread
    included ([pthread_create] fails with [EAGAIN] beyond it, or [malloc]
    returns a null descriptor). *)
Variable capacity : nat.

(** ** Memory: the arrays [A] and [B] *)

Record state : Type := mk_state { A : list elt; B : list elt }.

Definition read (l : list elt) (i : Z) : option elt :=
  if i <? 0 then None else nth_error l (Z.to_nat i).

Definition write (l : list elt) (i : Z) (v : elt) : option (list elt) :=
  if (0 <=? i) && (i <? Z.of_nat (length l))
  then Some (firstn (Z.to_nat i) l ++ v :: skipn (S (Z.to_nat i)) l)
  else None.

Definition load (a : arr) (i : Z) (st : state) : option elt :=
  match a with
  | ArrA => read (A st) i
  | ArrB => read (B st) i
  end.

Definition store (a : arr) (i : Z) (v : elt) (st : state) : option state :=
  match a with
  | ArrA => option_map (fun l => {| A := l; B := B st |}) (write (A st) i v)
  | ArrB => option_map (fun l => {| A := A st; B := l |}) (write (B st) i v)
  end.

Definition array_length (a : arr) (st : state) : nat :=
  match a with
  | ArrA => length (A st)
  | ArrB => length (B st)
  end.

(** ** Programs *)

Inductive prog (R : Type) : Type :=
| Ret (r : R)
| Fault
| Load (a : arr) (i : Z) (k : elt -> prog R)
| Store (a : arr) (i : Z) (v : elt) (k : prog R)
| Par (c1 c2 : prog unit) (k : prog R).

Arguments Ret {R} r.
Arguments Fault {R}.
Arguments Load {R} a i k.
Arguments Store {R} a i v k.
Arguments Par {R} c1 c2 k.

Fixpoint bind {X Y : Type} (p : prog X) (f : X -> prog Y) : prog Y :=
  match p with
  | Ret x => f x
  | Fault => Fault
  | Load a i k => Load a i (fun v => bind (k v) f)
  | Store a i v k => Store a i v (bind k f)
  | Par c1 c2 k => Par c1 c2 (bind k f)
  end.

Notation "x <- p ;; q" := (bind p (fun x => q))
  (at level 61, p at next level, right associativity).
Notation "' pat <- p ;; q" := (bind p (fun x => match x with pat => q end))
  (at level 61, pat pattern, p at next level, right associativity).
Notation "p ;; q" := (bind p (fun _ => q))
  (at level 61, right associativity).

(** An [int] result that must fit in 32 bits. *)
Definition checked {R : Type} (z : Z) (p : prog R) : prog R :=
  if in_int z then p else Fault.

(** Sequential reading: the two threads of a fork run one after the other. *)
Fixpoint run {R : Type} (p : prog R) (st : state) : option (R * state) :=
  match p with
  | Ret r => Some (r, st)
  | Fault => None
  | Load a i k =>
      match load a i st with
      | Some v => run (k v) st
      | None => None
      end
  | Store a i v k =>
      match store a i v st with
      | Some st' => run k st'
      | None => None
      end
  | Par c1 c2 k =>
      match run c1 st with
      | Some (_, st1) =>
          match run c2 st1 with
          | Some (_, st2) => run k st2
          | None => None
          end
      | None => None
      end
  end.

(** ** [merge] *)

(** [while (i <= leftend && j <= rightend)
       B[k++] = (A[i] <= A[j]) ? A[i++] : A[j++];] *)
Equations? merge_loop_both (leftend rightend i j k : Z) : prog (Z * Z * Z)
  by wf (Z.to_nat (leftend - i + 1) + Z.to_nat (rightend - j + 1))%nat lt :=
merge_loop_both leftend rightend i j k
  with inspect ((i <=? leftend) && (j <=? rightend)) := {
  | exist _ true _ =>
      Load ArrA i (fun x =>
      Load ArrA j (fun y =>
        if key x <=? key y
        then Load ArrA i (fun v =>
             Store ArrB k v
               (checked (k + 1) (checked (i + 1)
                  (merge_loop_both leftend rightend (i + 1) j (k + 1)))))
        else Load ArrA j (fun v =>
             Store ArrB k v
               (checked (k + 1) (checked (j + 1)
                  (merge_loop_both leftend rightend i (j + 1) (k + 1)))))))
  | exist _ false _ => Ret (i, j, k) }.
Proof.
  all: apply andb_prop in e; destruct e as [e1 e2];
    apply Z.leb_le in e1; apply Z.leb_le in e2; lia.
Qed.

(** [while (i <= leftend) B[k++] = A[i++];]  (also used with [j] and
    [rightend] for the right half). *)
Equations? merge_loop_rest (last i k : Z) : prog (Z * Z)
  by wf (Z.to_nat (last - i + 1)) lt :=
merge_loop_rest last i k with inspect (i <=? last) := {
  | exist _ true _ =>
      Load ArrA i (fun v =>
      Store ArrB k v
        (checked (k + 1) (checked (i + 1)
           (merge_loop_rest last (i + 1) (k + 1)))))
  | exist _ false _ => Ret (i, k) }.
Proof. apply Z.leb_le in e. lia. Qed.

(** [memcpy(&A[start], &B[start], count * sizeof(int))], one [int] at a
    time.  A negative [count] would become a huge [size_t]. *)
Fixpoint copy_back (n : nat) (i : Z) : prog unit :=
  match n with
  | O => Ret tt
  | S n' => Load ArrB i (fun v => Store ArrA i v (copy_back n' (i + 1)))
  end.

Definition memcpy_A_B (start count : Z) : prog unit :=
  if count <? 0 then Fault else copy_back (Z.to_nat count) start.

Definition merge (leftstart leftend rightstart rightend : Z) : prog unit :=
  '(i, j, k) <- merge_loop_both leftend rightend leftstart rightstart leftstart ;;
  '(_, k) <- merge_loop_rest leftend i k ;;
  '(_, _) <- merge_loop_rest rightend j k ;;
  checked (rightend - leftstart)
    (checked (rightend - leftstart + 1)
       (memcpy_A_B leftstart (rightend - leftstart + 1))).

(** ** [my_mergesort] *)

Equations? my_mergesort (left right : Z) : prog unit
  by wf (Z.to_nat (right - left)) lt :=
my_mergesort left right with inspect (left >=? right) := {
  | exist _ true _ => Ret tt
  | exist _ false _ =>
      checked (right - left)
        (checked (midpoint left right)
           (my_mergesort left (midpoint left right) ;;
            checked (midpoint left right + 1)
              (my_mergesort (midpoint left right + 1) right ;;
               merge left (midpoint left right)
                     (midpoint left right + 1) right))) }.
Proof.
  all: split_decreases.
Qed.

(** ** [parallel_mergesort] *)

(** [cutoff] is the global set by the driver before the sort starts.
    The [free(a)] of a child's descriptor has no effect on the arrays. *)
Equations? parallel_mergesort (cutoff : Z) (a : argument) : prog unit
  by wf (Z.to_nat (right a - left a)) lt :=
parallel_mergesort cutoff a with inspect (left a >=? right a) := {
  | exist _ true _ => Ret tt
  | exist _ false _ =>
      if level a >=? cutoff
      then my_mergesort (left a) (right a)
      else
        checked (right a - left a)
          (checked (midpoint (left a) (right a))
             (checked (level a + 1)
                (checked (midpoint (left a) (right a) + 1)
                   (Par
                      (parallel_mergesort cutoff (leftArg a))
                      (parallel_mergesort cutoff (rightArg a))
                      (merge (left a) (midpoint (left a) (right a))
                             (midpoint (left a) (right a) + 1) (right a)))))) }.
Proof.
  all: split_decreases.
Qed.

(** ** Threads and the interleaving semantics *)

(** A thread is running a program, or is blocked in [pthread_join] on its
    two children and will continue with [k]. *)
Inductive threads : Type :=
| Run (p : prog unit)
| Join (t1 t2 : threads) (k : prog unit).

Definition finished : threads := Run (Ret tt).

(** One memory access, fork or join of one thread. *)
Inductive step : threads -> state -> threads -> state -> Prop :=
| step_load a i k st v :
    load a i st = Some v ->
    step (Run (Load a i k)) st (Run (k v)) st
| step_store a i v k st st' :
    store a i v st = Some st' ->
    step (Run (Store a i v k)) st (Run k) st'
| step_fork c1 c2 k st :
    step (Run (Par c1 c2 k)) st (Join (Run c1) (Run c2) k) st
| step_left t1 t1' t2 k st st' :
    step t1 st t1' st' ->
    step (Join t1 t2 k) st (Join t1' t2 k) st'
| step_right t1 t2 t2' k st st' :
    step t2 st t2' st' ->
    step (Join t1 t2 k) st (Join t1 t2' k) st'
| step_join k st :
    step (Join finished finished k) st (Run k) st.

(** Threads that are running, and threads that exist (those blocked in a
    join included). *)
Fixpoint running (t : threads) : nat :=
  match t with
  | Run _ => 1
  | Join t1 t2 _ => running t1 + running t2
  end.

Fixpoint alive (t : threads) : nat :=
  match t with
  | Run _ => 1
  | Join t1 t2 _ => S (alive t1 + alive t2)
  end.

(** Some thread is about to overflow an [int] or to access an array out
    of bounds. *)
Inductive bad_access : threads -> state -> Prop :=
| bad_fault st : bad_access (Run Fault) st
| bad_load a i k st : load a i st = None -> bad_access (Run (Load a i k)) st
| bad_store a i v k st :
    store a i v st = None -> bad_access (Run (Store a i v k)) st
| bad_left t1 t2 k st : bad_access t1 st -> bad_access (Join t1 t2 k) st
| bad_right t1 t2 k st : bad_access t2 st -> bad_access (Join t1 t2 k) st.

(** Some thread is about to fan out. *)
Inductive forking : threads -> Prop :=
| forking_here c1 c2 k : forking (Run (Par c1 c2 k))
| forking_left t1 t2 k : forking t1 -> forking (Join t1 t2 k)
| forking_right t1 t2 k : forking t2 -> forking (Join t1 t2 k).

(** Some thread is about to fan out while its two children do not both
    fit: a [buildArgs] or a [pthread_create] of lines 118-125 fails, its
    result is not looked at, and [pthread_join] is then called on a
    handle that was never set (or [buildArgs] writes through a null
    pointer). *)
Definition starved (t : threads) : Prop :=
  forking t /\ (capacity < alive t + 2)%nat.

(** Some thread is about to perform an undefined operation.  [step_fork]
    above is the fork both of whose creations succeed; a fork that is
    not certain to be of that kind makes the state faulty. *)
Definition faulty (t : threads) (st : state) : Prop :=
  bad_access t st \/ starved t.

(** The next access of some thread: array, index, and whether it writes. *)
Inductive access : threads -> arr -> Z -> bool -> Prop :=
| access_load a i k : access (Run (Load a i k)) a i false
| access_store a i v k : access (Run (Store a i v k)) a i true
| access_left t1 t2 k a i w : access t1 a i w -> access (Join t1 t2 k) a i w
| access_right t1 t2 k a i w : access t2 a i w -> access (Join t1 t2 k) a i w.

(** Two sibling threads are about to touch the same cell, one of them
    writing: a data race. *)
Inductive racy : threads -> Prop :=
| racy_here t1 t2 k a i w1 w2 :
    access t1 a i w1 -> access t2 a i w2 -> w1 || w2 = true ->
    racy (Join t1 t2 k)
| racy_left t1 t2 k : racy t1 -> racy (Join t1 t2 k)
| racy_right t1 t2 k : racy t2 -> racy (Join t1 t2 k).

(** Total correctness under every schedule: from [(t, st)] no schedule
    reaches a fault or a data race, every schedule terminates, and the
    final state satisfies [Q]. *)
Inductive all_runs (Q : state -> Prop) : threads -> state -> Prop :=
| all_runs_done st : Q st -> all_runs Q finished st
| all_runs_step t st :
    t <> finished ->
    ~ faulty t st ->
    ~ racy t ->
    (forall t' st', step t st t' st' -> all_runs Q t' st') ->
    all_runs Q t st.

(** [next t' t]: [t] can become [t'] by one step, in some state. *)
Definition next (t' t : threads) : Prop := exists st st', step t st t' st'.

Inductive steps : threads -> state -> threads -> state -> Prop :=
| steps_refl t st : steps t st t st
| steps_cons t st t1 st1 t2 st2 :
    step t st t1 st1 -> steps t1 st1 t2 st2 -> steps t st t2 st2.

(** Sequential reading of a thread tree. *)
Fixpoint run_threads (t : threads) (st : state) : option state :=
  match t with
  | Run p => option_map snd (run p st)
  | Join t1 t2 k =>
      match run_threads t1 st with
      | Some st1 =>
          match run_threads t2 st1 with
          | Some st2 => option_map snd (run k st2)
          | None => None
          end
      | None => None
      end
  end.

(** ** Footprints *)

(** [confined l r Q p]: every access of [p] has its index in [[l, r]],
    the two threads of a fork keep to [[l, m]] and [[m+1, r]], and every
    result of [p] satisfies [Q]. *)
Inductive confined : Z -> Z -> forall R : Type, (R -> Prop) -> prog R -> Prop :=
| confined_ret l r R (Q : R -> Prop) x :
    Q x -> confined l r Q (Ret x)
| confined_fault l r R (Q : R -> Prop) :
    confined l r Q Fault
| confined_load l r R (Q : R -> Prop) a i k :
    l <= i <= r -> (forall v, confined l r Q (k v)) ->
    confined l r Q (Load a i k)
| confined_store l r R (Q : R -> Prop) a i v k :
    l <= i <= r -> confined l r Q k ->
    confined l r Q (Store a i v k)
| confined_par l r R (Q : R -> Prop) m c1 c2 k :
    l - 1 <= m <= r ->
    confined l m (fun _ => True) c1 ->
    confined (m + 1) r (fun _ => True) c2 ->
    confined l r Q k ->
    confined l r Q (Par c1 c2 k).

Inductive confined_threads : Z -> Z -> threads -> Prop :=
| confined_run l r p :
    confined l r (fun _ => True) p -> confined_threads l r (Run p)
| confined_join l r m t1 t2 k :
    l - 1 <= m <= r ->
    confined_threads l m t1 ->
    confined_threads (m + 1) r t2 ->
    confined l r (fun _ => True) k ->
    confined_threads l r (Join t1 t2 k).

(** Two states that agree on the cells [[l, r]] of both arrays. *)
Definition agree (l r : Z) (s1 s2 : state) : Prop :=
  length (A s1) = length (A s2) /\
  length (B s1) = length (B s2) /\
  forall a i, l <= i <= r -> load a i s1 = load a i s2.

(** [s1] and [s2] differ at most on the cells [[l, r]]. *)
Definition same_outside (l r : Z) (s1 s2 : state) : Prop :=
  length (A s1) = length (A s2) /\
  length (B s1) = length (B s2) /\
  forall a i, ~ l <= i <= r -> load a i s1 = load a i s2.

(** ** What the sort computes, on lists *)

(** Ascending order of the keys. *)
Definition key_le (x y : elt) : Prop := key x <= key y.
Definition ascending (l : list elt) : Prop := Sorted key_le l.

(** The cells [[l, r]] of an array. *)
Definition slice (l r : Z) (xs : list elt) : list elt :=
  firstn (Z.to_nat (r - l + 1)) (skipn (Z.to_nat l) xs).

(** The elements of a list whose key is [c], in order. *)
Definition with_key (c : Z) (xs : list elt) : list elt :=
  filter (fun x => key x =? c) xs.

(** Merging two lists, the left one first on equal keys: the contents
    that [merge] leaves in the merged range. *)
Fixpoint merge_lists (l1 : list elt) : list elt -> list elt :=
  fix inner (l2 : list elt) : list elt :=
    match l1, l2 with
    | [], _ => l2
    | _, [] => l1
    | x :: l1', y :: l2' =>
        if key x <=? key y then x :: merge_lists l1' l2 else y :: inner l2'
    end.

(** The contents that [my_mergesort] leaves in a range that held [xs]:
    the left half has [(n - 1) / 2 + 1] of the [n] cells. *)
Equations? sort_list (xs : list elt) : list elt by wf (length xs) lt :=
sort_list xs with inspect (length xs <=? 1)%nat := {
  | exist _ true _ => xs
  | exist _ false _ =>
      merge_lists (sort_list (firstn (S ((length xs - 1) / 2)) xs))
                  (sort_list (skipn (S ((length xs - 1) / 2)) xs)) }.
Proof.
  all: apply Nat.leb_gt in e;
    assert ((length xs - 1) / 2 < length xs - 1)%nat
      by (apply Nat.div_lt; lia);
    change (fst (Nat.divmod (length xs - 1) 1 0 1))
      with ((length xs - 1) / 2)%nat;
    destruct xs as [|x xs]; simpl in *; [lia|].
  - rewrite length_firstn. lia.
  - rewrite length_skipn. lia.
Qed.

(** The scratch cells of a range after [my_mergesort]: untouched for a
    range of at most one cell, else a copy of the sorted range. *)
Definition scratch_after (xs bs : list elt) : list elt :=
  if (length xs <=? 1)%nat then bs else sort_list xs.

(** ** The driver's check and the shape of the recursion *)

(** [is_sorted(size)] of the test driver:
    [for (i = 0; i < size - 1; i++) if (A[i] > A[i + 1]) return false;
     return true;] *)
Equations? is_sorted_loop (size i : Z) : prog bool
  by wf (Z.to_nat (size - 1 - i)) lt :=
is_sorted_loop size i with inspect (i <? size - 1) := {
  | exist _ true _ =>
      Load ArrA i (fun x =>
      checked (i + 1)
        (Load ArrA (i + 1) (fun y =>
         if key x >? key y then Ret false
         else is_sorted_loop size (i + 1))))
  | exist _ false _ => Ret true }.
Proof. apply Z.ltb_lt in e. lia. Qed.

Definition is_sorted (size : Z) : prog bool :=
  checked (size - 1) (is_sorted_loop size 0).

(** The recursive calls of [my_mergesort (left, right)], made only when
    [left < right]. *)
Inductive sort_call : Z * Z -> Z * Z -> Prop :=
| sort_call_left l r : l < r -> sort_call (l, midpoint l r) (l, r)
| sort_call_right l r : l < r -> sort_call (midpoint l r + 1, r) (l, r).

(** [spawned cutoff a c]: the thread working on [a] fans out and hands
    [c] to one of its two children. *)
Inductive spawned (cutoff : Z) : argument -> argument -> Prop :=
| spawned_left a :
    left a < right a -> level a < cutoff -> spawned cutoff a (leftArg a)
| spawned_right a :
    left a < right a -> level a < cutoff -> spawned cutoff a (rightArg a).

(** A descriptor reached from the root by any number of fan-out steps. *)
Inductive descends (cutoff : Z) (root : argument) : argument -> Prop :=
| descends_root : descends cutoff root root
| descends_child a c :
    descends cutoff root a -> spawned cutoff a c -> descends cutoff root c.

(** Adjacent cells of the index range [[l, r]] are in ascending order. *)
Definition sorted_range (l r : Z) (xs : list elt) : Prop :=
  forall i, l <= i -> i + 1 <= r ->
    exists x y, read xs i = Some x /\ read xs (i + 1) = Some y /\
                key x <= key y.

(** ** Counting threads *)

(** [fork_depth d p]: forks of [p] are nested at most [d] deep. *)
Inductive fork_depth : nat -> forall R : Type, prog R -> Prop :=
| fork_depth_ret d R (x : R) : fork_depth d (Ret x)
| fork_depth_fault d R : fork_depth d (@Fault R)
| fork_depth_load d R a i (k : elt -> prog R) :
    (forall v, fork_depth d (k v)) -> fork_depth d (Load a i k)
| fork_depth_store d R a i v (k : prog R) :
    fork_depth d k -> fork_depth d (Store a i v k)
| fork_depth_par d R c1 c2 (k : prog R) :
    fork_depth d c1 -> fork_depth d c2 -> fork_depth (S d) k ->
    fork_depth (S d) (Par c1 c2 k).

Inductive fork_depth_threads : nat -> threads -> Prop :=
| fork_depth_run d p : fork_depth d p -> fork_depth_threads d (Run p)
| fork_depth_join d t1 t2 k :
    fork_depth_threads d t1 -> fork_depth_threads d t2 ->
    fork_depth (S d) k ->
    fork_depth_threads (S d) (Join t1 t2 k).

(** * Verification *)

(** ** Arithmetic of the split *)

Lemma midpoint_bounds (l r : Z) : l < r -> l <= midpoint l r < r.
Proof.
  intros H. unfold midpoint.
  pose proof (Z.quot_rem' (r - l) 2) as Hq.
  pose proof (Z.rem_bound_pos (r - l) 2) as Hr.
  lia.
Qed.

Lemma midpoint_left_size (l r : Z) :
  l < r ->
  midpoint l r - l + 1 = Z.of_nat (S ((Z.to_nat (r - l + 1) - 1) / 2)).
Proof.
  intros H. unfold midpoint.
  rewrite Z.quot_div_nonneg by lia.
  replace (Z.to_nat (r - l + 1) - 1)%nat with (Z.to_nat (r - l)) by lia.
  rewrite Nat2Z.inj_succ, Nat2Z.inj_div, Z2Nat.id by lia.
  change (Z.of_nat 2) with 2. lia.
Qed.

Lemma geb_false_lt (l r : Z) : (l >=? r) = false -> l < r.
Proof. rewrite Z.geb_leb. apply Z.leb_gt. Qed.

Lemma geb_true_ge (l r : Z) : (l >=? r) = true -> r <= l.
Proof. rewrite Z.geb_leb. apply Z.leb_le. Qed.

Lemma in_int_true (z : Z) : int_min <= z <= int_max -> in_int z = true.
Proof.
  intros H. unfold in_int. apply andb_true_intro. split; apply Z.leb_le; lia.
Qed.

(** ** Arrays *)

Lemma nth_error_here (q t : list elt) (a : elt) (n : nat) :
  n = length q -> nth_error (q ++ a :: t) n = Some a.
Proof.
  intros ->. rewrite nth_error_app2, Nat.sub_diag by lia. reflexivity.
Qed.

Lemma nth_error_other (q t : list elt) (a b : elt) (n : nat) :
  n <> length q -> nth_error (q ++ a :: t) n = nth_error (q ++ b :: t) n.
Proof.
  intros Hn. destruct (Nat.lt_ge_cases n (length q)).
  - rewrite !nth_error_app1 by assumption. reflexivity.
  - rewrite !nth_error_app2 by assumption.
    destruct (n - length q)%nat eqn:E; [lia | reflexivity].
Qed.

Lemma read_here (p s : list elt) (x : elt) (i : Z) :
  i = Z.of_nat (length p) -> read (p ++ x :: s) i = Some x.
Proof.
  intros ->. unfold read.
  destruct (Z.ltb_spec (Z.of_nat (length p)) 0) as [H|_]; [lia|].
  rewrite Nat2Z.id, nth_error_app2, Nat.sub_diag by lia. reflexivity.
Qed.

Lemma update_here (p s : list elt) (x y : elt) :
  firstn (length p) (p ++ y :: s) ++ x :: skipn (S (length p)) (p ++ y :: s)
  = p ++ x :: s.
Proof.
  induction p as [|a p IH]; [reflexivity|].
  change (a :: firstn (length p) (p ++ y :: s)
            ++ x :: skipn (S (length p)) (p ++ y :: s) = a :: p ++ x :: s).
  f_equal. exact IH.
Qed.

Lemma write_here (p s : list elt) (x y : elt) (i : Z) :
  i = Z.of_nat (length p) -> write (p ++ y :: s) i x = Some (p ++ x :: s).
Proof.
  intros ->. unfold write.
  rewrite length_app. simpl length.
  destruct (Z.leb_spec 0 (Z.of_nat (length p))) as [_|H]; [|lia].
  destruct (Z.ltb_spec (Z.of_nat (length p))
              (Z.of_nat (length p + S (length s)))) as [_|H]; [|lia].
  cbn [andb]. rewrite Nat2Z.id, update_here. reflexivity.
Qed.

Lemma write_some (l : list elt) (i : Z) (v : elt) (l' : list elt) :
  write l i v = Some l' ->
  exists p y s, l = p ++ y :: s /\ l' = p ++ v :: s /\ i = Z.of_nat (length p).
Proof.
  unfold write. intros H.
  destruct (Z.leb_spec 0 i) as [H0|]; [|discriminate].
  destruct (Z.ltb_spec i (Z.of_nat (length l))) as [H1|]; [|discriminate].
  simpl in H. injection H as <-.
  destruct (nth_error l (Z.to_nat i)) as [y|] eqn:Hy.
  - apply nth_error_split in Hy. destruct Hy as (p & s & -> & Hlen).
    exists p, y, s. rewrite <- Hlen, update_here.
    repeat split. lia.
  - apply nth_error_None in Hy. lia.
Qed.

Lemma write_none (l : list elt) (i : Z) (v : elt) :
  write l i v = None <-> ~ 0 <= i < Z.of_nat (length l).
Proof.
  unfold write.
  destruct (Z.leb_spec 0 i); destruct (Z.ltb_spec i (Z.of_nat (length l)));
    simpl; split; intros; try discriminate; try reflexivity; try lia;
    exfalso; lia.
Qed.

Lemma read_none (l : list elt) (i : Z) :
  read l i = None <-> ~ 0 <= i < Z.of_nat (length l).
Proof.
  unfold read. destruct (Z.ltb_spec i 0).
  - split; intros; [lia | reflexivity].
  - rewrite nth_error_None. lia.
Qed.

Lemma length_write (l : list elt) (i : Z) (v : elt) (l' : list elt) :
  write l i v = Some l' -> length l' = length l.
Proof.
  intros H. apply write_some in H. destruct H as (p & y & s & -> & -> & _).
  rewrite !length_app. reflexivity.
Qed.

Lemma read_write_other (l : list elt) (i j : Z) (v : elt) (l' : list elt) :
  write l i v = Some l' -> j <> i -> read l' j = read l j.
Proof.
  intros H Hj. apply write_some in H.
  destruct H as (p & y & s & -> & -> & ->).
  unfold read. destruct (Z.ltb_spec j 0); [reflexivity|].
  destruct (Nat.lt_ge_cases (Z.to_nat j) (length p)).
  - rewrite !nth_error_app1 by assumption. reflexivity.
  - rewrite !nth_error_app2 by assumption.
    destruct (Z.to_nat j - length p)%nat eqn:E; [lia | reflexivity].
Qed.

Lemma write_write_other (l : list elt) (i j : Z) (v w : elt) (l1 l2 : list elt) :
  i <> j -> write l i v = Some l1 -> write l j w = Some l2 ->
  exists l', write l1 j w = Some l' /\ write l2 i v = Some l'.
Proof.
  intros Hij H1 H2.
  destruct (write l1 j w) as [l'|] eqn:E1.
  2:{ apply write_none in E1. rewrite (length_write _ _ _ H1) in E1.
      assert (write l j w <> None) as E by congruence.
      rewrite write_none in E. tauto. }
  destruct (write l2 i v) as [l''|] eqn:E2.
  2:{ apply write_none in E2. rewrite (length_write _ _ _ H2) in E2.
      assert (write l i v <> None) as E by congruence.
      rewrite write_none in E. tauto. }
  exists l'. split; [reflexivity|]. f_equal.
  apply write_some in H1. destruct H1 as (p1 & y1 & s1 & -> & -> & ->).
  apply write_some in E1. destruct E1 as (p2 & y2 & s2 & E1 & -> & ->).
  apply write_some in H2. destruct H2 as (p3 & y3 & s3 & H2 & -> & Hp3).
  apply write_some in E2. destruct E2 as (p4 & y4 & s4 & E2 & -> & Hp4).
  apply Nat2Z.inj in Hp3.
  assert (length p1 <> length p2) as Hne by lia.
  assert (length p4 = length p1) as L4 by lia.
  apply nth_error_ext. intros n.
  pose proof (fun q a t => @nth_error_here q t a n) as Hhere.
  pose proof (fun q a b t => @nth_error_other q t a b n) as Hoth.
  destruct (Nat.eq_dec n (length p1)) as [N1|N1].
  - rewrite (Hhere p4) by lia.
    rewrite (Hoth p2 w y2) by lia. rewrite <- E1. symmetry. apply Hhere.
    assumption.
  - rewrite (Hoth p4 v y4) by lia. rewrite <- E2.
    destruct (Nat.eq_dec n (length p2)) as [N2|N2].
    + rewrite (Hhere p2) by assumption. apply Hhere. lia.
    + rewrite (Hoth p2 w y2) by assumption. rewrite <- E1.
      rewrite (Hoth p1 v y1) by assumption. rewrite H2.
      apply Hoth. lia.
Qed.

(** ** The recursive definitions, unfolded once *)

Lemma merge_loop_both_eq (leftend rightend i j k : Z) :
  merge_loop_both leftend rightend i j k =
  if (i <=? leftend) && (j <=? rightend)
  then
    Load ArrA i (fun x =>
    Load ArrA j (fun y =>
      if key x <=? key y
      then Load ArrA i (fun v =>
           Store ArrB k v
             (checked (k + 1) (checked (i + 1)
                (merge_loop_both leftend rightend (i + 1) j (k + 1)))))
      else Load ArrA j (fun v =>
           Store ArrB k v
             (checked (k + 1) (checked (j + 1)
                (merge_loop_both leftend rightend i (j + 1) (k + 1)))))))
  else Ret (i, j, k).
Proof.
  rewrite merge_loop_both_equation_1.
  destruct (inspect ((i <=? leftend) && (j <=? rightend))) as [[] e];
    cbn; rewrite e; reflexivity.
Qed.

Lemma merge_loop_rest_eq (last i k : Z) :
  merge_loop_rest last i k =
  if i <=? last
  then Load ArrA i (fun v =>
       Store ArrB k v
         (checked (k + 1) (checked (i + 1)
            (merge_loop_rest last (i + 1) (k + 1)))))
  else Ret (i, k).
Proof.
  rewrite merge_loop_rest_equation_1.
  destruct (inspect (i <=? last)) as [[] e]; cbn; rewrite e; reflexivity.
Qed.

Lemma my_mergesort_eq (l r : Z) :
  my_mergesort l r =
  if l >=? r then Ret tt
  else
    checked (r - l)
      (checked (midpoint l r)
         (my_mergesort l (midpoint l r) ;;
          checked (midpoint l r + 1)
            (my_mergesort (midpoint l r + 1) r ;;
             merge l (midpoint l r) (midpoint l r + 1) r))).
Proof.
  rewrite my_mergesort_equation_1.
  destruct (inspect (l >=? r)) as [[] e]; cbn; rewrite e; reflexivity.
Qed.

Lemma parallel_mergesort_eq (cutoff : Z) (a : argument) :
  parallel_mergesort cutoff a =
  if left a >=? right a then Ret tt
  else if level a >=? cutoff then my_mergesort (left a) (right a)
  else
    checked (right a - left a)
      (checked (midpoint (left a) (right a))
         (checked (level a + 1)
            (checked (midpoint (left a) (right a) + 1)
               (Par
                  (parallel_mergesort cutoff (leftArg a))
                  (parallel_mergesort cutoff (rightArg a))
                  (merge (left a) (midpoint (left a) (right a))
                         (midpoint (left a) (right a) + 1) (right a)))))).
Proof.
  rewrite parallel_mergesort_equation_1.
  destruct (inspect (left a >=? right a)) as [[] e]; cbn; rewrite e;
    reflexivity.
Qed.

Lemma sort_list_eq (xs : list elt) :
  sort_list xs =
  if (length xs <=? 1)%nat then xs
  else merge_lists (sort_list (firstn (S ((length xs - 1) / 2)) xs))
                   (sort_list (skipn (S ((length xs - 1) / 2)) xs)).
Proof.
  rewrite sort_list_equation_1.
  destruct (inspect (length xs <=? 1)%nat) as [[] e]; cbn; rewrite e;
    reflexivity.
Qed.

Lemma merge_lists_nil_l (l2 : list elt) : merge_lists [] l2 = l2.
Proof. destruct l2; reflexivity. Qed.

Lemma merge_lists_nil_r (l1 : list elt) : merge_lists l1 [] = l1.
Proof. destruct l1; reflexivity. Qed.

Lemma merge_lists_cons (x y : elt) (l1 l2 : list elt) :
  merge_lists (x :: l1) (y :: l2) =
  if key x <=? key y then x :: merge_lists l1 (y :: l2)
  else y :: merge_lists (x :: l1) l2.
Proof. reflexivity. Qed.

(** ** Sequential execution *)

Lemma run_bind (X Y : Type) (p : prog X) (f : X -> prog Y) (st : state) :
  run (bind p f) st =
  match run p st with
  | Some (x, st') => run (f x) st'
  | None => None
  end.
Proof.
  revert Y f st.
  induction p as [X x | X | X a i k IH | X a i v k IH | X c1 _ c2 _ k IH];
    intros Y f st; simpl.
  - reflexivity.
  - reflexivity.
  - destruct (load a i st); [apply IH | reflexivity].
  - destruct (store a i v st); [apply IH | reflexivity].
  - destruct (run c1 st) as [[[] st1]|]; [|reflexivity].
    destruct (run c2 st1) as [[[] st2]|]; [apply IH | reflexivity].
Qed.

Lemma run_checked (R : Type) (z : Z) (p : prog R) (st : state) :
  int_min <= z <= int_max -> run (checked z p) st = run p st.
Proof. intros H. unfold checked. rewrite in_int_true by assumption. reflexivity. Qed.

Lemma run_checked_if (R : Type) (z : Z) (p : prog R) (st : state) :
  run (checked z p) st = if in_int z then run p st else None.
Proof. unfold checked. destruct (in_int z); reflexivity. Qed.

Lemma bind_checked (X Y : Type) (z : Z) (p : prog X) (f : X -> prog Y) :
  bind (checked z p) f = checked z (bind p f).
Proof. unfold checked. destruct (in_int z); reflexivity. Qed.

Lemma cons_app_assoc (p : list elt) (x : elt) (s : list elt) :
  p ++ x :: s = (p ++ [x]) ++ s.
Proof. rewrite <- app_assoc. reflexivity. Qed.

Lemma length_snoc (p : list elt) (x : elt) :
  Z.of_nat (length (p ++ [x])) = Z.of_nat (length p) + 1.
Proof. rewrite length_app. simpl. lia. Qed.

(** ** The loops of [merge] *)

(** A copy loop moves the cells [xs] at [A[i..]] to [B[k..]]. *)
Lemma run_loop_rest (Y : Type) (F : Z * Z -> prog Y) (xs : list elt) :
  forall (ap az bp bs : list elt) (last i k : Z),
    i = Z.of_nat (length ap) ->
    last = i + Z.of_nat (length xs) - 1 ->
    k = Z.of_nat (length bp) ->
    (length xs <= length bs)%nat ->
    i + Z.of_nat (length xs) <= int_max ->
    k + Z.of_nat (length xs) <= int_max ->
    run (bind (merge_loop_rest last i k) F)
        {| A := ap ++ xs ++ az; B := bp ++ bs |}
    = run (F (i + Z.of_nat (length xs), k + Z.of_nat (length xs)))
        {| A := ap ++ xs ++ az; B := bp ++ xs ++ skipn (length xs) bs |}.
Proof.
  induction xs as [|x xs IH]; intros ap az bp bs last i k Hi Hlast Hk Hbs Bi Bk.
  - rewrite merge_loop_rest_eq.
    destruct (Z.leb_spec i last) as [H|_]; [simpl in Hlast; lia|].
    simpl. rewrite !Z.add_0_r. reflexivity.
  - rewrite merge_loop_rest_eq.
    destruct (Z.leb_spec i last) as [_|H]; [|simpl length in Hlast; lia].
    destruct bs as [|b0 bs]; [simpl in Hbs; lia|].
    simpl length in *.
    cbn [bind run load store A B app].
    rewrite (read_here ap (xs ++ az) x Hi).
    rewrite (write_here bp bs x b0 Hk).
    cbn [option_map].
    rewrite !bind_checked, !run_checked by (unfold int_min, int_max in *; lia).
    rewrite (cons_app_assoc ap), (cons_app_assoc bp).
    rewrite (IH (ap ++ [x]) az (bp ++ [x]) bs last (i + 1) (k + 1));
      rewrite ?length_snoc; try lia.
    rewrite <- !cons_app_assoc. cbn [skipn app].
    do 2 f_equal. f_equal; lia.
Qed.

(** The three loops together leave the left-biased merge of the two
    ranges in [B]; [gap] is the part of the array between them. *)
Lemma run_merge_loops (Y : Type) (G : prog Y) (l1 : list elt) :
  forall (l2 ap gap az bp bs : list elt) (leftend rightend i j k : Z),
    i = Z.of_nat (length ap) ->
    leftend = i + Z.of_nat (length l1) - 1 ->
    j = i + Z.of_nat (length l1) + Z.of_nat (length gap) ->
    rightend = j + Z.of_nat (length l2) - 1 ->
    k = Z.of_nat (length bp) ->
    (length l1 + length l2 <= length bs)%nat ->
    j + Z.of_nat (length l2) <= int_max ->
    k + Z.of_nat (length l1) + Z.of_nat (length l2) <= int_max ->
    run ('(i', j', k') <- merge_loop_both leftend rightend i j k ;;
         '(_, k'') <- merge_loop_rest leftend i' k' ;;
         '(_, _) <- merge_loop_rest rightend j' k'' ;;
         G)
        {| A := ap ++ l1 ++ gap ++ l2 ++ az; B := bp ++ bs |}
    = run G
        {| A := ap ++ l1 ++ gap ++ l2 ++ az;
           B := bp ++ merge_lists l1 l2
                   ++ skipn (length l1 + length l2) bs |}.
Proof.
  induction l1 as [|x l1 IH1].
  - intros l2 ap gap az bp bs leftend rightend i j k Hi Hle Hj Hre Hk Hbs Bj Bk.
    simpl length in *.
    rewrite merge_loop_both_eq.
    destruct (Z.leb_spec i leftend) as [H|_]; [lia|].
    cbn [andb bind].
    rewrite (run_loop_rest _ [] ap (gap ++ l2 ++ az) bp bs) by (simpl; lia).
    cbn [length app skipn]. rewrite !Z.add_0_r.
    rewrite merge_lists_nil_l.
    rewrite (app_assoc ap gap).
    rewrite (run_loop_rest _ l2 (ap ++ gap) az bp bs);
      rewrite ?length_app; try lia.
    reflexivity.
  - induction l2 as [|y l2 IH2];
      intros ap gap az bp bs leftend rightend i j k Hi Hle Hj Hre Hk Hbs Bj Bk.
    + simpl length in *.
      rewrite merge_loop_both_eq.
      destruct (Z.leb_spec j rightend) as [H|_]; [lia|].
      rewrite andb_false_r. cbn [bind].
      rewrite (run_loop_rest _ (x :: l1) ap (gap ++ [] ++ az) bp bs);
        simpl length; try lia.
      rewrite merge_lists_nil_r.
      rewrite (app_assoc bp (x :: l1)).
      rewrite (app_assoc ap (x :: l1)), (app_assoc (ap ++ x :: l1) gap).
      rewrite (run_loop_rest _ [] ((ap ++ x :: l1) ++ gap) az
                 (bp ++ x :: l1) (skipn (S (length l1)) bs));
        rewrite ?length_app; simpl length; try lia.
      rewrite <- !app_assoc. cbn [app skipn].
      replace (S (length l1) + 0)%nat with (S (length l1)) by lia.
      reflexivity.
    + simpl length in *.
      rewrite merge_loop_both_eq.
      destruct (Z.leb_spec i leftend) as [_|H]; [|lia].
      destruct (Z.leb_spec j rightend) as [_|H]; [|lia].
      destruct bs as [|b0 bs]; [simpl in Hbs; lia|].
      simpl length in Hbs.
      cbn [andb bind run load store A B app].
      rewrite (read_here ap (l1 ++ gap ++ y :: l2 ++ az) x Hi).
      assert (ap ++ x :: l1 ++ gap ++ y :: l2 ++ az
              = (ap ++ (x :: l1) ++ gap) ++ y :: (l2 ++ az)) as EA
        by (rewrite <- !app_assoc; reflexivity).
      assert (read (ap ++ x :: l1 ++ gap ++ y :: l2 ++ az) j = Some y) as Ry.
      { rewrite EA. apply read_here. rewrite !length_app. simpl length. lia. }
      rewrite Ry.
      rewrite merge_lists_cons.
      destruct (key x <=? key y).
      * cbn [bind run load store A B].
        rewrite (read_here ap (l1 ++ gap ++ y :: l2 ++ az) x Hi).
        rewrite (write_here bp bs x b0 Hk). cbn [option_map].
        rewrite !bind_checked, !run_checked
          by (unfold int_min, int_max in *; lia).
        rewrite (cons_app_assoc ap), (cons_app_assoc bp).
        change (y :: l2 ++ az) with ((y :: l2) ++ az).
        rewrite (IH1 (y :: l2) (ap ++ [x]) gap az (bp ++ [x]) bs
                   leftend rightend (i + 1) j (k + 1));
          rewrite ?length_snoc; simpl length; try lia.
        rewrite <- !cons_app_assoc. reflexivity.
      * cbn [bind run load store A B].
        rewrite Ry.
        rewrite (write_here bp bs y b0 Hk). cbn [option_map].
        rewrite !bind_checked, !run_checked
          by (unfold int_min, int_max in *; lia).
        rewrite (cons_app_assoc bp).
        change (ap ++ x :: l1 ++ gap ++ y :: l2 ++ az)
          with (ap ++ (x :: l1) ++ gap ++ (y :: l2) ++ az).
        replace (gap ++ (y :: l2) ++ az) with ((gap ++ [y]) ++ l2 ++ az)
          by (rewrite <- app_assoc; reflexivity).
        rewrite (IH2 ap (gap ++ [y]) az (bp ++ [y]) bs
                   leftend rightend i (j + 1) (k + 1));
          rewrite ?length_snoc, ?length_app; simpl length; try lia.
        rewrite <- !cons_app_assoc.
        replace (S (length l1) + S (length l2))%nat
          with (S (S (length l1) + length l2)) by lia.
        reflexivity.
Qed.

Lemma length_merge_lists (l1 l2 : list elt) :
  length (merge_lists l1 l2) = (length l1 + length l2)%nat.
Proof.
  revert l2. induction l1 as [|x l1 IH1]; intros l2.
  - rewrite merge_lists_nil_l. reflexivity.
  - induction l2 as [|y l2 IH2].
    + rewrite merge_lists_nil_r. simpl. lia.
    + rewrite merge_lists_cons. destruct (key x <=? key y); cbn [length].
      * rewrite IH1. cbn [length]. lia.
      * rewrite IH2. cbn [length]. lia.
Qed.

Lemma skipn_app_exact (p s : list elt) (n : nat) :
  n = length p -> skipn n (p ++ s) = s.
Proof.
  intros ->. rewrite skipn_app, Nat.sub_diag, skipn_all. reflexivity.
Qed.

Lemma firstn_app_exact (p s : list elt) (n : nat) :
  n = length p -> firstn n (p ++ s) = p.
Proof.
  intros ->. rewrite firstn_app, Nat.sub_diag, firstn_all. simpl.
  apply app_nil_r.
Qed.

(** The copy back: [m] is the block of [B] that overwrites [A]. *)
Lemma run_copy_back (m : list elt) :
  forall (ap az bp bz : list elt) (i : Z),
    i = Z.of_nat (length ap) ->
    i = Z.of_nat (length bp) ->
    (length m <= length az)%nat ->
    run (copy_back (length m) i) {| A := ap ++ az; B := bp ++ m ++ bz |}
    = Some (tt, {| A := ap ++ m ++ skipn (length m) az;
                   B := bp ++ m ++ bz |}).
Proof.
  induction m as [|x m IH]; intros ap az bp bz i Ha Hb Hlen.
  - reflexivity.
  - destruct az as [|a0 az]; [simpl in Hlen; lia|]. simpl length in Hlen.
    cbn [length copy_back run load store A B app].
    rewrite (read_here bp (m ++ bz) x Hb).
    rewrite (write_here ap az x a0 Ha). cbn [option_map].
    rewrite (cons_app_assoc ap), (cons_app_assoc bp).
    rewrite (IH (ap ++ [x]) az (bp ++ [x]) bz (i + 1));
      rewrite ?length_snoc; try lia.
    rewrite <- !cons_app_assoc. reflexivity.
Qed.

(** ** [merge] on adjacent ranges *)

Lemma run_merge (l1 l2 ap az bp bm bz : list elt)
      (leftstart leftend rightstart rightend : Z) :
  leftstart = Z.of_nat (length ap) ->
  leftend = leftstart + Z.of_nat (length l1) - 1 ->
  rightstart = leftend + 1 ->
  rightend = rightstart + Z.of_nat (length l2) - 1 ->
  length bp = length ap ->
  length bm = (length l1 + length l2)%nat ->
  rightend + 1 <= int_max ->
  run (merge leftstart leftend rightstart rightend)
      {| A := ap ++ l1 ++ l2 ++ az; B := bp ++ bm ++ bz |}
  = Some (tt, {| A := ap ++ merge_lists l1 l2 ++ az;
                 B := bp ++ merge_lists l1 l2 ++ bz |}).
Proof.
  intros Hls Hle Hrs Hre Hbp Hbm Bnd.
  unfold merge.
  change (l2 ++ az) with ([] ++ l2 ++ az).
  rewrite (run_merge_loops _ l1 l2 ap [] az bp (bm ++ bz));
    rewrite ?length_app; simpl length; try lia.
  rewrite (skipn_app_exact bm bz) by lia.
  rewrite !run_checked by (unfold int_min, int_max in *; lia).
  unfold memcpy_A_B.
  destruct (Z.ltb_spec (rightend - leftstart + 1) 0) as [H|_]; [lia|].
  replace (Z.to_nat (rightend - leftstart + 1))
    with (length (merge_lists l1 l2))
    by (rewrite length_merge_lists; lia).
  cbn [app].
  rewrite (run_copy_back (merge_lists l1 l2) ap (l1 ++ l2 ++ az) bp bz);
    rewrite ?length_merge_lists, ?length_app; try lia.
  rewrite (app_assoc l1 l2), (skipn_app_exact (l1 ++ l2) az)
    by (rewrite length_app; reflexivity).
  reflexivity.
Qed.

(** ** [my_mergesort] computes [sort_list] *)

Lemma half_lt (n : nat) : (1 < n)%nat -> (S ((n - 1) / 2) < n)%nat.
Proof.
  intros H. assert ((n - 1) / 2 < n - 1)%nat by (apply Nat.div_lt; lia). lia.
Qed.

Lemma length_sort_list (xs : list elt) : length (sort_list xs) = length xs.
Proof.
  remember (length xs) as n eqn:Hn.
  revert xs Hn. induction n as [n IH] using lt_wf_ind. intros xs Hn.
  rewrite sort_list_eq. destruct (Nat.leb_spec (length xs) 1) as [|H].
  - congruence.
  - pose proof (half_lt H) as Hh.
    rewrite length_merge_lists.
    set (h := S ((length xs - 1) / 2)) in *.
    assert (length (firstn h xs) < n)%nat as H1
      by (rewrite length_firstn; lia).
    assert (length (skipn h xs) < n)%nat as H2
      by (rewrite length_skipn; lia).
    rewrite (IH _ H1 (firstn h xs) eq_refl), (IH _ H2 (skipn h xs) eq_refl).
    rewrite length_firstn, length_skipn. lia.
Qed.

Lemma length_scratch_after (xs bs : list elt) :
  length bs = length xs -> length (scratch_after xs bs) = length xs.
Proof.
  intros H. unfold scratch_after.
  destruct (length xs <=? 1)%nat; [assumption | apply length_sort_list].
Qed.

Lemma run_my_mergesort (xs : list elt) :
  forall (ap az bp bm bz : list elt) (l r : Z),
    l = Z.of_nat (length ap) ->
    r = l + Z.of_nat (length xs) - 1 ->
    length bp = length ap ->
    length bm = length xs ->
    l + Z.of_nat (length xs) <= int_max ->
    run (my_mergesort l r) {| A := ap ++ xs ++ az; B := bp ++ bm ++ bz |}
    = Some (tt, {| A := ap ++ sort_list xs ++ az;
                   B := bp ++ scratch_after xs bm ++ bz |}).
Proof.
  remember (length xs) as n eqn:Hn.
  revert xs Hn. induction n as [n IH] using lt_wf_ind.
  intros xs Hn ap az bp bm bz l r Hl Hr Hbp Hbm Bnd. subst n.
  unfold scratch_after. rewrite my_mergesort_eq, sort_list_eq.
  destruct (Nat.leb_spec (length xs) 1) as [Hsmall|Hbig].
  - destruct (l >=? r) eqn:E; [reflexivity|].
    apply geb_false_lt in E. lia.
  - destruct (l >=? r) eqn:E; [apply geb_true_ge in E; lia|].
    apply geb_false_lt in E.
    pose proof (midpoint_bounds E) as Hm.
    pose proof (midpoint_left_size E) as Hsz.
    replace (Z.to_nat (r - l + 1)) with (length xs) in Hsz by lia.
    pose proof (half_lt Hbig) as Hh.
    set (h := S ((length xs - 1) / 2)) in *.
    set (m := midpoint l r) in *.
    rewrite <- (firstn_skipn h xs) at 1.
    rewrite <- (firstn_skipn h bm) at 1.
    set (xl := firstn h xs). set (xr := skipn h xs).
    set (bl := firstn h bm). set (br := skipn h bm).
    assert (length xl = h) as Lxl by (unfold xl; rewrite length_firstn; lia).
    assert (length xr = (length xs - h)%nat) as Lxr
      by (unfold xr; rewrite length_skipn; lia).
    assert (length bl = h) as Lbl by (unfold bl; rewrite length_firstn; lia).
    assert (length br = (length xs - h)%nat) as Lbr
      by (unfold br; rewrite length_skipn; lia).
    rewrite !run_checked by (unfold int_min, int_max in *; lia).
    rewrite run_bind, <- !app_assoc.
    rewrite (IH (length xl)) with (xs := xl); try lia.
    rewrite run_checked by (unfold int_min, int_max in *; lia).
    rewrite run_bind.
    rewrite (app_assoc ap), (app_assoc bp).
    rewrite (IH (length xr)) with (xs := xr);
      rewrite ?length_app, ?length_sort_list, ?length_scratch_after; try lia.
    rewrite <- !app_assoc.
    rewrite (app_assoc (scratch_after xl bl)).
    apply run_merge;
      rewrite ?length_app, ?length_sort_list, ?length_scratch_after; lia.
Qed.

(** ** [parallel_mergesort], read sequentially, is [my_mergesort] *)

Lemma run_parallel_mergesort (cutoff : Z) (a : argument) (st : state) :
  int_min <= level a ->
  cutoff <= int_max ->
  run (parallel_mergesort cutoff a) st
  = run (my_mergesort (left a) (right a)) st.
Proof.
  remember (Z.to_nat (right a - left a)) as n eqn:Hn.
  revert a st Hn. induction n as [n IH] using lt_wf_ind.
  intros [l r lv] st Hn Hlv Hc. cbn [left right level] in *.
  rewrite parallel_mergesort_eq. cbn [left right level].
  destruct (lv >=? cutoff) eqn:El.
  { rewrite my_mergesort_eq. destruct (l >=? r); reflexivity. }
  rewrite my_mergesort_eq.
  destruct (l >=? r) eqn:E; [reflexivity|].
  apply geb_false_lt in E. apply geb_false_lt in El.
  pose proof (midpoint_bounds E) as Hm.
  set (m := midpoint l r) in *.
  rewrite !run_checked_if.
  destruct (in_int (r - l)); [|reflexivity].
  destruct (in_int m); [|reflexivity].
  rewrite (in_int_true (z := lv + 1)) by lia.
  rewrite run_bind.
  cbn [run].
  unfold leftArg, rightArg. cbn [left right level]. fold m.
  rewrite (IH (Z.to_nat (m - l))) by (cbn [left right level buildArgs]; lia).
  cbn [left right buildArgs].
  destruct (in_int (m + 1)) eqn:Em.
  - destruct (run (my_mergesort l m) st) as [[[] st1]|]; [|reflexivity].
    rewrite run_checked_if, Em, run_bind.
    rewrite (IH (Z.to_nat (r - (m + 1))))
      by (cbn [left right level buildArgs]; lia).
    cbn [left right buildArgs].
    destruct (run (my_mergesort (m + 1) r) st1) as [[[] st2]|]; reflexivity.
  - destruct (run (my_mergesort l m) st) as [[[] st1]|]; [|reflexivity].
    rewrite run_checked_if, Em. reflexivity.
Qed.

(** ** Properties of [merge_lists] *)

Lemma key_le_trans : Relations_1.Transitive key_le.
Proof. intros x y z. unfold key_le. lia. Qed.

Lemma ascending_strongly (l : list elt) :
  ascending l -> StronglySorted key_le l.
Proof. apply Sorted_StronglySorted. exact key_le_trans. Qed.

Lemma ascending_tail (x : elt) (l : list elt) :
  ascending (x :: l) -> ascending l.
Proof. intros H. inversion H. assumption. Qed.

Lemma ascending_head (x : elt) (l : list elt) :
  ascending (x :: l) -> Forall (key_le x) l.
Proof.
  intros H. apply ascending_strongly in H. inversion H. assumption.
Qed.

Lemma ascending_app (l1 l2 : list elt) :
  ascending (l1 ++ l2) -> ascending l1 /\ ascending l2.
Proof.
  induction l1 as [|x l1 IH]; intros H.
  - split; [constructor | assumption].
  - simpl in H. pose proof (ascending_tail H) as Ht.
    destruct (IH Ht) as [H1 H2]. split; [|assumption].
    constructor; [assumption|].
    inversion H as [|? ? _ Hd]. subst.
    destruct l1; constructor. inversion Hd. assumption.
Qed.

Lemma ascending_short (l : list elt) : (length l <= 1)%nat -> ascending l.
Proof.
  destruct l as [|x [|y l]]; simpl; intros H.
  - constructor.
  - repeat constructor.
  - lia.
Qed.

Lemma merge_lists_HdRel (a : elt) (l1 l2 : list elt) :
  HdRel key_le a l1 -> HdRel key_le a l2 ->
  HdRel key_le a (merge_lists l1 l2).
Proof.
  intros H1 H2. destruct l1 as [|x l1].
  - rewrite merge_lists_nil_l. assumption.
  - destruct l2 as [|y l2].
    + rewrite merge_lists_nil_r. assumption.
    + rewrite merge_lists_cons. inversion H1. inversion H2.
      destruct (key x <=? key y); constructor; assumption.
Qed.

Lemma merge_lists_ascending (l1 l2 : list elt) :
  ascending l1 -> ascending l2 -> ascending (merge_lists l1 l2).
Proof.
  revert l2. induction l1 as [|x l1 IH1]; intros l2 H1 H2.
  - rewrite merge_lists_nil_l. assumption.
  - induction l2 as [|y l2 IH2].
    + rewrite merge_lists_nil_r. assumption.
    + rewrite merge_lists_cons.
      destruct (Z.leb_spec (key x) (key y)) as [Hxy|Hxy].
      * constructor.
        -- apply IH1; [eapply ascending_tail; eassumption | assumption].
        -- apply merge_lists_HdRel.
           ++ inversion H1. assumption.
           ++ constructor. exact Hxy.
      * constructor.
        -- apply IH2. eapply ascending_tail; eassumption.
        -- apply merge_lists_HdRel.
           ++ constructor. unfold key_le. lia.
           ++ inversion H2. assumption.
Qed.

Lemma merge_lists_permutation (l1 l2 : list elt) :
  Permutation (l1 ++ l2) (merge_lists l1 l2).
Proof.
  revert l2. induction l1 as [|x l1 IH1]; intros l2.
  - rewrite merge_lists_nil_l. apply Permutation_refl.
  - induction l2 as [|y l2 IH2].
    + rewrite merge_lists_nil_r, app_nil_r. apply Permutation_refl.
    + rewrite merge_lists_cons. destruct (key x <=? key y).
      * simpl. apply perm_skip. apply IH1.
      * apply Permutation_trans with (y :: (x :: l1) ++ l2).
        -- apply Permutation_sym. apply Permutation_middle.
        -- apply perm_skip. exact IH2.
Qed.

Lemma with_key_app (c : Z) (l1 l2 : list elt) :
  with_key c (l1 ++ l2) = with_key c l1 ++ with_key c l2.
Proof. apply filter_app. Qed.

Lemma with_key_above (c : Z) (l : list elt) :
  Forall (fun x => c < key x) l -> with_key c l = [].
Proof.
  induction 1 as [|x l Hx _ IH]; [reflexivity|].
  unfold with_key in *. simpl.
  destruct (Z.eqb_spec (key x) c); [lia | assumption].
Qed.

(** Stability: among the cells with a given key, those of the left list
    come first, and each list keeps its own order. *)
Lemma merge_lists_stable (c : Z) (l1 l2 : list elt) :
  ascending l1 ->
  with_key c (merge_lists l1 l2) = with_key c l1 ++ with_key c l2.
Proof.
  revert l2. induction l1 as [|x l1 IH1]; intros l2 H1.
  - rewrite merge_lists_nil_l. reflexivity.
  - induction l2 as [|y l2 IH2].
    + rewrite merge_lists_nil_r, app_nil_r. reflexivity.
    + rewrite merge_lists_cons.
      destruct (Z.leb_spec (key x) (key y)) as [Hxy|Hxy].
      * change (with_key c ([x] ++ merge_lists l1 (y :: l2))
                = with_key c ([x] ++ l1) ++ with_key c (y :: l2)).
        rewrite !with_key_app, IH1, app_assoc
          by (eapply ascending_tail; eassumption).
        reflexivity.
      * change (with_key c ([y] ++ merge_lists (x :: l1) l2)
                = with_key c (x :: l1) ++ with_key c ([y] ++ l2)).
        rewrite !with_key_app, IH2.
        destruct (Z.eqb_spec (key y) c) as [Hc|Hc].
        -- rewrite (with_key_above (c := c) (l := x :: l1)); [reflexivity|].
           constructor; [lia|].
           eapply Forall_impl; [|apply ascending_head; exact H1].
           unfold key_le. intros z Hz. lia.
        -- unfold with_key at 1 4. simpl.
           destruct (Z.eqb_spec (key y) c); [contradiction|]. reflexivity.
Qed.

Lemma merge_lists_sorted_input (l1 l2 : list elt) :
  ascending (l1 ++ l2) -> merge_lists l1 l2 = l1 ++ l2.
Proof.
  revert l2. induction l1 as [|x l1 IH]; intros l2 H.
  - apply merge_lists_nil_l.
  - destruct l2 as [|y l2].
    + rewrite merge_lists_nil_r, app_nil_r. reflexivity.
    + rewrite merge_lists_cons.
      simpl in H. pose proof (ascending_head H) as Hx.
      rewrite Forall_app in Hx. destruct Hx as [_ Hx].
      inversion Hx as [|? ? Hxy _]. subst. unfold key_le in Hxy.
      destruct (Z.leb_spec (key x) (key y)); [|lia].
      simpl. f_equal. apply IH. eapply ascending_tail; eassumption.
Qed.

(** ** Properties of [sort_list] *)

Lemma sort_list_ascending (xs : list elt) : ascending (sort_list xs).
Proof.
  remember (length xs) as n eqn:Hn.
  revert xs Hn. induction n as [n IH] using lt_wf_ind. intros xs Hn.
  rewrite sort_list_eq. destruct (Nat.leb_spec (length xs) 1) as [H|H].
  - apply ascending_short. assumption.
  - pose proof (half_lt H).
    apply merge_lists_ascending.
    + eapply IH; [|reflexivity]. rewrite length_firstn. lia.
    + eapply IH; [|reflexivity]. rewrite length_skipn. lia.
Qed.

Lemma sort_list_permutation (xs : list elt) : Permutation xs (sort_list xs).
Proof.
  remember (length xs) as n eqn:Hn.
  revert xs Hn. induction n as [n IH] using lt_wf_ind. intros xs Hn.
  rewrite sort_list_eq. destruct (Nat.leb_spec (length xs) 1) as [H|H].
  - apply Permutation_refl.
  - pose proof (half_lt H).
    set (h := S ((length xs - 1) / 2)) in *.
    eapply Permutation_trans; [|apply merge_lists_permutation].
    rewrite <- (firstn_skipn h xs) at 1.
    apply Permutation_app.
    + eapply IH; [|reflexivity]. rewrite length_firstn. lia.
    + eapply IH; [|reflexivity]. rewrite length_skipn. lia.
Qed.

Lemma sort_list_stable (c : Z) (xs : list elt) :
  with_key c (sort_list xs) = with_key c xs.
Proof.
  remember (length xs) as n eqn:Hn.
  revert xs Hn. induction n as [n IH] using lt_wf_ind. intros xs Hn.
  rewrite sort_list_eq. destruct (Nat.leb_spec (length xs) 1) as [H|H].
  - reflexivity.
  - pose proof (half_lt H).
    set (h := S ((length xs - 1) / 2)) in *.
    rewrite merge_lists_stable by apply sort_list_ascending.
    rewrite <- (firstn_skipn h xs) at 3.
    rewrite with_key_app. f_equal.
    + eapply IH; [|reflexivity]. rewrite length_firstn. lia.
    + eapply IH; [|reflexivity]. rewrite length_skipn. lia.
Qed.

Lemma sort_list_sorted_input (xs : list elt) :
  ascending xs -> sort_list xs = xs.
Proof.
  remember (length xs) as n eqn:Hn.
  revert xs Hn. induction n as [n IH] using lt_wf_ind. intros xs Hn Hs.
  rewrite sort_list_eq. destruct (Nat.leb_spec (length xs) 1) as [H|H].
  - reflexivity.
  - pose proof (half_lt H).
    set (h := S ((length xs - 1) / 2)) in *.
    pose proof Hs as Hs'. rewrite <- (firstn_skipn h xs) in Hs'.
    destruct (ascending_app _ _ Hs') as [H1 H2].
    rewrite (IH (length (firstn h xs))) with (xs := firstn h xs);
      [|rewrite length_firstn; lia|reflexivity|assumption].
    rewrite (IH (length (skipn h xs))) with (xs := skipn h xs);
      [|rewrite length_skipn; lia|reflexivity|assumption].
    rewrite merge_lists_sorted_input by assumption.
    apply firstn_skipn.
Qed.

(** * Threads *)

(** ** Loads and stores *)

Lemma store_lengths (a : arr) (i : Z) (v : elt) (st st' : state) :
  store a i v st = Some st' ->
  length (A st') = length (A st) /\ length (B st') = length (B st).
Proof.
  destruct a; simpl; destruct (write _ i v) as [l'|] eqn:E;
    intros H; inversion H; subst; simpl;
    (split; [|reflexivity]) || (split; [reflexivity|]);
    eapply length_write; eassumption.
Qed.

Lemma store_none (a : arr) (i : Z) (v : elt) (st : state) :
  store a i v st = None <-> ~ 0 <= i < Z.of_nat (array_length a st).
Proof.
  destruct a; simpl; rewrite <- (write_none _ i v);
    destruct (write _ i v); simpl; split; intros H;
    reflexivity || discriminate.
Qed.

Lemma load_none (a : arr) (i : Z) (st : state) :
  load a i st = None <-> ~ 0 <= i < Z.of_nat (array_length a st).
Proof. destruct a; simpl; apply read_none. Qed.

Lemma load_store_other (a a' : arr) (i j : Z) (v : elt) (st st' : state) :
  store a i v st = Some st' -> j <> i -> load a' j st' = load a' j st.
Proof.
  intros H Hj.
  destruct a; simpl in H; destruct (write _ i v) as [l'|] eqn:E;
    inversion H; subst; destruct a'; simpl; try reflexivity;
    eapply read_write_other; eassumption.
Qed.

Lemma store_store_other (a a' : arr) (i j : Z) (v w : elt) (st s1 s2 : state) :
  i <> j ->
  store a i v st = Some s1 -> store a' j w st = Some s2 ->
  exists s', store a' j w s1 = Some s' /\ store a i v s2 = Some s'.
Proof.
  intros Hij H1 H2.
  destruct a, a'; simpl in *;
    destruct (write _ i v) as [l1|] eqn:E1; inversion H1; subst; clear H1;
    destruct (write _ j w) as [l2|] eqn:E2; inversion H2; subst; clear H2;
    simpl.
  - destruct (@write_write_other _ _ _ _ _ _ _ Hij E1 E2) as (l' & -> & ->).
    eexists; split; reflexivity.
  - rewrite ?E1, ?E2. simpl. eexists; split; reflexivity.
  - rewrite ?E1, ?E2. simpl. eexists; split; reflexivity.
  - destruct (@write_write_other _ _ _ _ _ _ _ Hij E1 E2) as (l' & -> & ->).
    eexists; split; reflexivity.
Qed.

Lemma same_outside_refl (l r : Z) (st : state) : same_outside l r st st.
Proof. repeat split. Qed.

Lemma same_outside_trans (l r : Z) (s1 s2 s3 : state) :
  same_outside l r s1 s2 -> same_outside l r s2 s3 -> same_outside l r s1 s3.
Proof.
  intros (A1 & B1 & H1) (A2 & B2 & H2). repeat split; try congruence.
  intros a i Hi. rewrite H1, H2 by assumption. reflexivity.
Qed.

Lemma same_outside_wider (l r l' r' : Z) (s1 s2 : state) :
  l' <= l -> r <= r' -> same_outside l r s1 s2 -> same_outside l' r' s1 s2.
Proof.
  intros Hl Hr (HA & HB & H). repeat split; try assumption.
  intros a i Hi. apply H. lia.
Qed.

Lemma same_outside_store (l r : Z) (a : arr) (i : Z) (v : elt) (st st' : state) :
  l <= i <= r -> store a i v st = Some st' -> same_outside l r st st'.
Proof.
  intros Hi H. destruct (store_lengths _ _ _ _ H) as [HA HB].
  repeat split; try congruence.
  intros a' j Hj. symmetry. eapply load_store_other; [eassumption|]. lia.
Qed.

(** ** The footprint of a sequential run *)

Lemma confined_inv (l r : Z) (R : Type) (Q : R -> Prop) (p : prog R) :
  confined l r Q p ->
  match p with
  | Ret x => Q x
  | Fault => True
  | Load a i k => l <= i <= r /\ forall v, confined l r Q (k v)
  | Store a i v k => l <= i <= r /\ confined l r Q k
  | Par c1 c2 k =>
      exists m, l - 1 <= m <= r /\
                confined l m (fun _ => True) c1 /\
                confined (m + 1) r (fun _ => True) c2 /\
                confined l r Q k
  end.
Proof. intros H. destruct H; simpl; eauto. Qed.

Lemma confined_weaken (l r : Z) (R : Type) (Q Q' : R -> Prop) (p : prog R) :
  (forall x, Q x -> Q' x) -> confined l r Q p -> confined l r Q' p.
Proof.
  intros HQ H. revert Q' HQ.
  induction H; intros Q' HQ; econstructor; eauto.
Qed.

Lemma confined_result (l r : Z) (R : Type) (Q : R -> Prop) (p : prog R) :
  confined l r Q p ->
  forall st x st', run p st = Some (x, st') -> Q x.
Proof.
  induction 1 as [l r R Q y Hy | l r R Q | l r R Q a i k Hi _ IH
                 | l r R Q a i v k Hi _ IH
                 | l r R Q m c1 c2 k Hm _ _ _ _ _ IH];
    intros st x st' Hrun; simpl in Hrun.
  - inversion Hrun. subst. assumption.
  - discriminate.
  - destruct (load a i st); [eapply IH; eassumption | discriminate].
  - destruct (store a i v st); [eapply IH; eassumption | discriminate].
  - destruct (run c1 st) as [[[] s1]|]; [|discriminate].
    destruct (run c2 s1) as [[[] s2]|]; [|discriminate].
    eapply IH; eassumption.
Qed.

(** A run changes nothing outside its range. *)
Lemma confined_frame (l r : Z) (R : Type) (Q : R -> Prop) (p : prog R) :
  confined l r Q p ->
  forall st x st', run p st = Some (x, st') -> same_outside l r st st'.
Proof.
  induction 1 as [l r R Q y Hy | l r R Q | l r R Q a i k Hi _ IH
                 | l r R Q a i v k Hi _ IH
                 | l r R Q m c1 c2 k Hm _ IH1 _ IH2 _ IH];
    intros st x st' Hrun; simpl in Hrun.
  - inversion Hrun. subst. apply same_outside_refl.
  - discriminate.
  - destruct (load a i st); [eapply IH; eassumption | discriminate].
  - destruct (store a i v st) as [s1|] eqn:E; [|discriminate].
    eapply same_outside_trans; [eapply same_outside_store; eassumption|].
    eapply IH; eassumption.
  - destruct (run c1 st) as [[[] s1]|] eqn:E1; [|discriminate].
    destruct (run c2 s1) as [[[] s2]|] eqn:E2; [|discriminate].
    eapply same_outside_trans;
      [eapply (@same_outside_wider l m l r); [lia|lia|eapply IH1; eassumption]|].
    eapply same_outside_trans;
      [eapply (@same_outside_wider (m + 1) r l r);
       [lia|lia|eapply IH2; eassumption]|].
    eapply IH; eassumption.
Qed.

(** A run commutes with a store outside its range. *)
Lemma confined_commute (l r : Z) (R : Type) (Q : R -> Prop) (p : prog R) :
  confined l r Q p ->
  forall a i v st sti x f,
    ~ l <= i <= r ->
    store a i v st = Some sti ->
    run p st = Some (x, f) ->
    exists fi, store a i v f = Some fi /\ run p sti = Some (x, fi).
Proof.
  induction 1 as [l r R Q y Hy | l r R Q | l r R Q a' j k Hj _ IH
                 | l r R Q a' j w k Hj _ IH
                 | l r R Q m c1 c2 k Hm _ IH1 _ IH2 _ IH];
    intros a i v st sti x f Hi Hst Hrun; simpl in Hrun |- *.
  - inversion Hrun. subst. exists sti. split; [assumption | reflexivity].
  - discriminate.
  - rewrite (@load_store_other _ a' _ j _ _ _ Hst) by lia.
    destruct (load a' j st); [eapply IH; eassumption | discriminate].
  - destruct (store a' j w st) as [s1|] eqn:E; [|discriminate].
    assert (i <> j) as Hij by lia.
    destruct (@store_store_other _ _ _ _ _ _ _ _ _ Hij Hst E)
      as (s' & E1 & E2).
    rewrite E1. eapply IH; eassumption.
  - destruct (run c1 st) as [[[] s1]|] eqn:E1; [|discriminate].
    destruct (run c2 s1) as [[[] s2]|] eqn:E2; [|discriminate].
    destruct (IH1 a i v st sti tt s1) as (s1i & S1 & R1);
      [lia|assumption|assumption|].
    destruct (IH2 a i v s1 s1i tt s2) as (s2i & S2 & R2);
      [lia|assumption|assumption|].
    rewrite R1, R2. eapply IH; eassumption.
Qed.

(** ** The footprint of a thread tree *)

Lemma run_threads_run (p : prog unit) (st f : state) :
  run_threads (Run p) st = Some f <-> run p st = Some (tt, f).
Proof.
  simpl. destruct (run p st) as [[[] s]|]; simpl; split; congruence.
Qed.

Lemma run_threads_join (t1 t2 : threads) (k : prog unit) (st f : state) :
  run_threads (Join t1 t2 k) st = Some f <->
  exists f1 f2,
    run_threads t1 st = Some f1 /\ run_threads t2 f1 = Some f2 /\
    run k f2 = Some (tt, f).
Proof.
  simpl. split.
  - destruct (run_threads t1 st) as [f1|]; [|discriminate].
    destruct (run_threads t2 f1) as [f2|] eqn:E2; [|discriminate].
    intros H. exists f1, f2.
    split; [reflexivity|]. split; [exact E2|].
    apply run_threads_run. exact H.
  - intros (f1 & f2 & -> & -> & H). apply run_threads_run. exact H.
Qed.

Lemma confined_threads_frame (l r : Z) (t : threads) :
  confined_threads l r t ->
  forall st f, run_threads t st = Some f -> same_outside l r st f.
Proof.
  induction 1 as [l r p Hp | l r m t1 t2 k Hm _ IH1 _ IH2 Hk];
    intros st f Hrun.
  - apply run_threads_run in Hrun. eapply confined_frame; eassumption.
  - apply run_threads_join in Hrun. destruct Hrun as (f1 & f2 & R1 & R2 & Rk).
    eapply same_outside_trans;
      [eapply (@same_outside_wider l m l r); [lia|lia|eapply IH1; eassumption]|].
    eapply same_outside_trans;
      [eapply (@same_outside_wider (m + 1) r l r);
       [lia|lia|eapply IH2; eassumption]|].
    eapply confined_frame; eassumption.
Qed.

Lemma confined_threads_commute (l r : Z) (t : threads) :
  confined_threads l r t ->
  forall a i v st sti f,
    ~ l <= i <= r ->
    store a i v st = Some sti ->
    run_threads t st = Some f ->
    exists fi, store a i v f = Some fi /\ run_threads t sti = Some fi.
Proof.
  induction 1 as [l r p Hp | l r m t1 t2 k Hm _ IH1 _ IH2 Hk];
    intros a i v st sti f Hi Hst Hrun.
  - apply run_threads_run in Hrun.
    destruct (confined_commute Hp _ _ _ Hi Hst Hrun) as (fi & S & Rn).
    exists fi. split; [assumption|]. apply run_threads_run. assumption.
  - apply run_threads_join in Hrun. destruct Hrun as (f1 & f2 & R1 & R2 & Rk).
    destruct (IH1 a i v st sti f1) as (f1i & S1 & R1i);
      [lia|assumption|assumption|].
    destruct (IH2 a i v f1 f1i f2) as (f2i & S2 & R2i);
      [lia|assumption|assumption|].
    destruct (confined_commute Hk _ _ _ Hi S2 Rk) as (fi & S & Rn).
    exists fi. split; [assumption|].
    apply run_threads_join. exists f1i, f2i. repeat split; assumption.
Qed.

(** ** Agreement on a range *)

Lemma agree_refl (l r : Z) (st : state) : agree l r st st.
Proof. repeat split. Qed.

Lemma agree_narrow (l r l' r' : Z) (s1 s2 : state) :
  l <= l' -> r' <= r -> agree l r s1 s2 -> agree l' r' s1 s2.
Proof.
  intros Hl Hr (HA & HB & H). repeat split; try assumption.
  intros a i Hi. apply H. lia.
Qed.

Lemma agree_same_outside (l r l' r' : Z) (s1 s2 s3 : state) :
  r' < l \/ r < l' ->
  agree l r s1 s2 -> same_outside l' r' s2 s3 -> agree l r s1 s3.
Proof.
  intros Hd (HA & HB & H) (HA' & HB' & H'). repeat split; try congruence.
  intros a i Hi. rewrite H by assumption. apply H'. lia.
Qed.

Lemma agree_store (l r : Z) (a : arr) (i : Z) (v : elt) (st st' s : state) :
  agree l r st s -> store a i v st = Some st' ->
  exists s', store a i v s = Some s'.
Proof.
  intros (HA & HB & _) H.
  destruct (store a i v s) as [s'|] eqn:E; [exists s'; reflexivity|].
  apply store_none in E.
  assert (store a i v st <> None) as N by congruence.
  rewrite store_none in N.
  assert (array_length a st = array_length a s) as L
    by (destruct a; assumption).
  rewrite L in N. tauto.
Qed.

(** ** A step of any thread preserves the sequential result *)

(** The step is replayed in a state [s] that agrees with [st] on the
    range of the thread tree: the sequential result from [s] is kept. *)
Lemma step_preserves (t t' : threads) (st st' : state) :
  step t st t' st' ->
  forall l r s f,
    confined_threads l r t ->
    agree l r st s ->
    run_threads t s = Some f ->
    exists s',
      run_threads t' s' = Some f /\
      confined_threads l r t' /\
      ((st' = st /\ s' = s) \/
       (exists a i v, l <= i <= r /\
                      store a i v st = Some st' /\ store a i v s = Some s')).
Proof.
  induction 1 as [a i k st v Hld | a i v k st st' Hst | c1 c2 k st
                 | t1 t1' t2 k st st' Hstep IH
                 | t1 t2 t2' k st st' Hstep IH
                 | k st];
    intros l r s f Hc Hag Hrun.
  - (* load *)
    inversion Hc as [? ? ? Hp|]; subst.
    apply confined_inv in Hp. destruct Hp as [Hi Hk].
    exists s. split; [|split].
    + apply run_threads_run in Hrun. apply run_threads_run.
      simpl in Hrun. destruct Hag as (_ & _ & Hag).
      rewrite <- Hag, Hld in Hrun by assumption. exact Hrun.
    + constructor. auto.
    + left. split; reflexivity.
  - (* store *)
    inversion Hc as [? ? ? Hp|]; subst.
    apply confined_inv in Hp. destruct Hp as [Hi Hk].
    destruct (@agree_store _ _ _ _ _ _ _ _ Hag Hst) as (s' & Hs').
    exists s'. split; [|split].
    + apply run_threads_run in Hrun. apply run_threads_run.
      simpl in Hrun. rewrite Hs' in Hrun. exact Hrun.
    + constructor. assumption.
    + right. exists a, i, v. repeat split; assumption || lia.
  - (* fork *)
    inversion Hc as [? ? ? Hp|]; subst.
    apply confined_inv in Hp. destruct Hp as (m & Hm & Hc1 & Hc2 & Hk).
    exists s. split; [|split].
    + apply run_threads_run in Hrun. simpl in Hrun.
      destruct (run c1 s) as [[[] s1]|] eqn:E1; [|discriminate].
      destruct (run c2 s1) as [[[] s2]|] eqn:E2; [|discriminate].
      apply run_threads_join. exists s1, s2.
      rewrite !run_threads_run. repeat split; assumption.
    + econstructor; try eassumption; constructor; assumption.
    + left. split; reflexivity.
  - (* a step of the left child *)
    inversion Hc as [|? ? m ? ? ? Hm Hc1 Hc2 Hk]; subst.
    apply run_threads_join in Hrun.
    destruct Hrun as (f1 & f2 & R1 & R2 & Rk).
    destruct (IH l m s f1 Hc1) as (s' & R1' & Hc1' & Heff);
      [eapply agree_narrow; [| |eassumption]; lia | assumption |].
    exists s'. split; [|split].
    + apply run_threads_join. exists f1, f2. repeat split; assumption.
    + econstructor; eassumption.
    + destruct Heff as [?|(a & i & v & Hi & S1 & S2)]; [left; assumption|].
      right. exists a, i, v. repeat split; assumption || lia.
  - (* a step of the right child *)
    inversion Hc as [|? ? m ? ? ? Hm Hc1 Hc2 Hk]; subst.
    apply run_threads_join in Hrun.
    destruct Hrun as (f1 & f2 & R1 & R2 & Rk).
    pose proof (confined_threads_frame Hc1 _ R1) as Hfr.
    destruct (IH (m + 1) r f1 f2 Hc2) as (f1' & R2' & Hc2' & Heff).
    { eapply agree_same_outside; [|eapply agree_narrow; [| |exact Hag]|exact Hfr];
        lia. }
    { assumption. }
    destruct Heff as [[-> ->]|(a & i & v & Hi & S1 & S2)].
    + exists s. split; [|split].
      * apply run_threads_join. exists f1, f2. repeat split; assumption.
      * econstructor; eassumption.
      * left. split; reflexivity.
    + destruct (@agree_store _ _ _ _ _ _ _ _ Hag S1) as (s' & Hs').
      destruct (@confined_threads_commute _ _ _ Hc1 a i v s s' f1)
        as (f1i & S1i & R1i); [lia|assumption|assumption|].
      assert (f1i = f1') by congruence. subst f1i.
      exists s'. split; [|split].
      * apply run_threads_join. exists f1', f2. repeat split; assumption.
      * econstructor; eassumption.
      * right. exists a, i, v. repeat split; assumption || lia.
  - (* join *)
    inversion Hc as [|? ? m ? ? ? Hm Hc1 Hc2 Hk]; subst.
    exists s. split; [|split].
    + apply run_threads_join in Hrun.
      destruct Hrun as (f1 & f2 & R1 & R2 & Rk).
      unfold finished in R1, R2. apply run_threads_run in R1, R2.
      simpl in R1, R2. inversion R1; inversion R2; subst.
      apply run_threads_run. assumption.
    + constructor. assumption.
    + left. split; reflexivity.
Qed.

(** ** No fault, no race *)

Lemma bad_access_agree (t : threads) (st : state) :
  bad_access t st ->
  forall s, length (A st) = length (A s) -> length (B st) = length (B s) ->
            bad_access t s.
Proof.
  induction 1 as [st | a i k st H | a i v k st H | t1 t2 k st _ IH
                 | t1 t2 k st _ IH];
    intros s HA HB.
  - constructor.
  - apply bad_load. apply load_none. apply load_none in H.
    replace (array_length a s) with (array_length a st)
      by (destruct a; assumption).
    assumption.
  - apply bad_store. apply store_none. apply store_none in H.
    replace (array_length a s) with (array_length a st)
      by (destruct a; assumption).
    assumption.
  - apply bad_left. auto.
  - apply bad_right. auto.
Qed.

Lemma run_threads_no_bad_access (l r : Z) (t : threads) :
  confined_threads l r t ->
  forall st f, run_threads t st = Some f -> ~ bad_access t st.
Proof.
  induction 1 as [l r p Hp | l r m t1 t2 k Hm Hc1 IH1 _ IH2 Hk];
    intros st f Hrun Hf.
  - apply run_threads_run in Hrun.
    inversion Hf; subst; simpl in Hrun.
    + discriminate.
    + match goal with H : load _ _ _ = None |- _ => rewrite H in Hrun end.
      discriminate.
    + match goal with H : store _ _ _ _ = None |- _ => rewrite H in Hrun end.
      discriminate.
  - apply run_threads_join in Hrun. destruct Hrun as (f1 & f2 & R1 & R2 & Rk).
    inversion Hf; subst.
    + eapply IH1; eassumption.
    + eapply IH2; [eassumption|].
      destruct (confined_threads_frame Hc1 _ R1) as (HA & HB & _).
      eapply bad_access_agree; eassumption.
Qed.

Lemma access_confined (l r : Z) (t : threads) :
  confined_threads l r t ->
  forall a i w, access t a i w -> l <= i <= r.
Proof.
  induction 1 as [l r p Hp | l r m t1 t2 k Hm _ IH1 _ IH2 Hk];
    intros a i w Hacc.
  - inversion Hacc; subst; apply confined_inv in Hp; tauto.
  - inversion Hacc; subst.
    + assert (l <= i <= m) by eauto. lia.
    + assert (m + 1 <= i <= r) by eauto. lia.
Qed.

Lemma confined_not_racy (l r : Z) (t : threads) :
  confined_threads l r t -> ~ racy t.
Proof.
  induction 1 as [l r p Hp | l r m t1 t2 k Hm Hc1 IH1 Hc2 IH2 Hk]; intros Hr.
  - inversion Hr.
  - inversion Hr; subst.
    + assert (l <= i <= m) by (eapply access_confined; eassumption).
      assert (m + 1 <= i <= r) by (eapply access_confined; eassumption).
      lia.
    + auto.
    + auto.
Qed.

(** ** Every schedule terminates *)

Lemma prog_unit_ind (P : prog unit -> Prop) :
  (forall x, P (Ret x)) ->
  P Fault ->
  (forall a i k, (forall v, P (k v)) -> P (Load a i k)) ->
  (forall a i v k, P k -> P (Store a i v k)) ->
  (forall c1 c2 k, P c1 -> P c2 -> P k -> P (Par c1 c2 k)) ->
  forall p, P p.
Proof.
  intros HR HF HL HS HP.
  fix IH 1. intros p. destruct p as [x | | a i k | a i v k | c1 c2 k].
  - apply HR.
  - apply HF.
  - apply HL. intros v. apply IH.
  - apply HS. apply IH.
  - apply HP; apply IH.
Qed.

Lemma Acc_join (t1 : threads) :
  Acc next t1 ->
  forall t2, Acc next t2 ->
  forall k, Acc next (Run k) -> Acc next (Join t1 t2 k).
Proof.
  induction 1 as [t1 _ IH1]. induction 1 as [t2 H2 IH2]. intros k Hk.
  constructor. intros t' (st & st' & Hstep).
  inversion Hstep; subst.
  - apply IH1; [eexists; eexists; eassumption | constructor; exact H2 | exact Hk].
  - apply IH2; [eexists; eexists; eassumption | exact Hk].
  - exact Hk.
Qed.

Lemma Acc_run (p : prog unit) : Acc next (Run p).
Proof.
  induction p as [x | | a i k IH | a i v k IH | c1 c2 k IH1 IH2 IHk]
    using prog_unit_ind;
    constructor; intros t' (st & st' & Hstep); inversion Hstep; subst.
  - apply IH.
  - exact IH.
  - apply Acc_join; assumption.
Qed.

Lemma Acc_threads (t : threads) : Acc next t.
Proof.
  induction t as [p | t1 IH1 t2 IH2 k].
  - apply Acc_run.
  - apply Acc_join; [assumption | assumption | apply Acc_run].
Qed.

Lemma finished_dec (t : threads) : t = finished \/ t <> finished.
Proof.
  destruct t as [p|]; [|right; discriminate].
  destruct p as [[] | | | |]; [left; reflexivity | | | |];
    right; discriminate.
Qed.

(** ** The depth of forks, and the threads it allows *)

Lemma fork_depth_inv (d : nat) (R : Type) (p : prog R) :
  fork_depth d p ->
  match p with
  | Ret _ => True
  | Fault => True
  | Load a i k => forall v, fork_depth d (k v)
  | Store a i v k => fork_depth d k
  | Par c1 c2 k =>
      exists d', d = S d' /\ fork_depth d' c1 /\ fork_depth d' c2 /\
                 fork_depth (S d') k
  end.
Proof. intros H. destruct H; simpl; eauto. Qed.

Lemma fork_depth_bind (d : nat) (X Y : Type) (p : prog X) (f : X -> prog Y) :
  fork_depth d p -> (forall x, fork_depth d (f x)) ->
  fork_depth d (bind p f).
Proof.
  intros H. revert Y f. induction H; intros Y f Hf; simpl.
  - apply Hf.
  - constructor.
  - constructor. auto.
  - constructor. auto.
  - constructor; auto.
Qed.

Lemma fork_depth_checked (d : nat) (R : Type) (z : Z) (p : prog R) :
  fork_depth d p -> fork_depth d (checked z p).
Proof. intros H. unfold checked. destruct (in_int z); [exact H | constructor]. Qed.

Lemma fork_depth_loop_rest (d : nat) (last : Z) (n : nat) :
  forall i k, n = Z.to_nat (last - i + 1) ->
              fork_depth d (merge_loop_rest last i k).
Proof.
  induction n as [n IH] using lt_wf_ind. intros i k Hn.
  rewrite merge_loop_rest_eq. destruct (Z.leb_spec i last) as [H|H].
  - constructor. intros v. constructor.
    do 2 apply fork_depth_checked.
    apply (IH (Z.to_nat (last - (i + 1) + 1))); [lia | reflexivity].
  - constructor.
Qed.

Lemma fork_depth_loop_both (d : nat) (leftend rightend : Z) (n : nat) :
  forall i j k,
    n = (Z.to_nat (leftend - i + 1) + Z.to_nat (rightend - j + 1))%nat ->
    fork_depth d (merge_loop_both leftend rightend i j k).
Proof.
  induction n as [n IH] using lt_wf_ind. intros i j k Hn.
  rewrite merge_loop_both_eq.
  destruct (Z.leb_spec i leftend) as [H1|H1];
    destruct (Z.leb_spec j rightend) as [H2|H2]; cbn [andb];
    try (constructor; fail).
  constructor. intros x. constructor. intros y.
  destruct (key x <=? key y).
  - constructor. intros v. constructor. do 2 apply fork_depth_checked.
    apply (IH (Z.to_nat (leftend - (i + 1) + 1)
               + Z.to_nat (rightend - j + 1))%nat); [lia | reflexivity].
  - constructor. intros v. constructor. do 2 apply fork_depth_checked.
    apply (IH (Z.to_nat (leftend - i + 1)
               + Z.to_nat (rightend - (j + 1) + 1))%nat); [lia | reflexivity].
Qed.

Lemma fork_depth_copy_back (d : nat) (n : nat) :
  forall i, fork_depth d (copy_back n i).
Proof.
  induction n as [|n IH]; intros i; simpl.
  - constructor.
  - constructor. intros v. constructor. apply IH.
Qed.

Lemma fork_depth_merge (d : nat) (leftstart leftend rightstart rightend : Z) :
  fork_depth d (merge leftstart leftend rightstart rightend).
Proof.
  unfold merge.
  apply fork_depth_bind; [eapply fork_depth_loop_both; reflexivity|].
  intros [[i j] k].
  apply fork_depth_bind; [eapply fork_depth_loop_rest; reflexivity|].
  intros [i' k'].
  apply fork_depth_bind; [eapply fork_depth_loop_rest; reflexivity|].
  intros [j' k''].
  do 2 apply fork_depth_checked. unfold memcpy_A_B.
  destruct (rightend - leftstart + 1 <? 0);
    [constructor | apply fork_depth_copy_back].
Qed.

Lemma fork_depth_my_mergesort (d : nat) (l r : Z) :
  fork_depth d (my_mergesort l r).
Proof.
  remember (Z.to_nat (r - l)) as n eqn:Hn.
  revert l r Hn. induction n as [n IH] using lt_wf_ind. intros l r Hn.
  rewrite my_mergesort_eq.
  destruct (l >=? r) eqn:E; [constructor|].
  apply geb_false_lt in E. pose proof (midpoint_bounds E) as Hm.
  do 2 apply fork_depth_checked.
  apply fork_depth_bind;
    [apply (IH (Z.to_nat (midpoint l r - l))); [lia | reflexivity]|].
  intros _. apply fork_depth_checked.
  apply fork_depth_bind;
    [apply (IH (Z.to_nat (r - (midpoint l r + 1)))); [lia | reflexivity]|].
  intros _. apply fork_depth_merge.
Qed.

Lemma fork_depth_parallel_mergesort (cutoff : Z) (a : argument) :
  fork_depth (Z.to_nat (cutoff - level a)) (parallel_mergesort cutoff a).
Proof.
  remember (Z.to_nat (right a - left a)) as n eqn:Hn.
  revert a Hn. induction n as [n IH] using lt_wf_ind. intros [l r lv] Hn.
  cbn [left right level] in *.
  rewrite parallel_mergesort_eq. cbn [left right level].
  destruct (l >=? r) eqn:E; [constructor|].
  destruct (lv >=? cutoff) eqn:El; [apply fork_depth_my_mergesort|].
  apply geb_false_lt in E. apply geb_false_lt in El.
  pose proof (midpoint_bounds E) as Hm.
  do 4 apply fork_depth_checked.
  replace (Z.to_nat (cutoff - lv)) with (S (Z.to_nat (cutoff - (lv + 1))))
    by lia.
  constructor.
  - apply (IH (Z.to_nat (midpoint l r - l)) ltac:(lia)
              (leftArg (mk_argument l r lv))).
    reflexivity.
  - apply (IH (Z.to_nat (r - (midpoint l r + 1))) ltac:(lia)
              (rightArg (mk_argument l r lv))).
    reflexivity.
  - apply fork_depth_merge.
Qed.

Lemma step_fork_depth (t t' : threads) (st st' : state) :
  step t st t' st' ->
  forall d, fork_depth_threads d t -> fork_depth_threads d t'.
Proof.
  induction 1 as [a i k st v Hld | a i v k st st' Hst | c1 c2 k st
                 | t1 t1' t2 k st st' Hstep IH
                 | t1 t2 t2' k st st' Hstep IH
                 | k st];
    intros d Hd.
  - inversion Hd as [? ? Hp|]; subst. apply fork_depth_inv in Hp.
    constructor. apply Hp.
  - inversion Hd as [? ? Hp|]; subst. apply fork_depth_inv in Hp.
    constructor. exact Hp.
  - inversion Hd as [? ? Hp|]; subst. apply fork_depth_inv in Hp.
    destruct Hp as (d' & -> & H1 & H2 & Hk).
    constructor; [constructor; exact H1 | constructor; exact H2 | exact Hk].
  - inversion Hd; subst. constructor; auto.
  - inversion Hd; subst. constructor; auto.
  - inversion Hd; subst. constructor. assumption.
Qed.

Lemma fork_depth_count (d : nat) (t : threads) :
  fork_depth_threads d t ->
  (running t <= 2 ^ d)%nat /\ (alive t <= 2 ^ S d - 1)%nat.
Proof.
  induction 1 as [d p _ | d t1 t2 k _ [IH1 IH1'] _ [IH2 IH2'] _].
  - simpl running. simpl alive.
    assert (2 ^ d <> 0)%nat by (apply Nat.pow_nonzero; lia).
    rewrite Nat.pow_succ_r'. lia.
  - simpl running. simpl alive.
    assert (2 ^ d <> 0)%nat by (apply Nat.pow_nonzero; lia).
    rewrite !Nat.pow_succ_r' in *. lia.
Qed.

(** A thread that is about to fan out leaves room for its two children
    within the bound of [fork_depth_count]. *)
Lemma forking_alive (d : nat) (t : threads) :
  fork_depth_threads d t -> forking t -> (alive t + 2 <= 2 ^ S d - 1)%nat.
Proof.
  induction 1 as [d p Hp | d t1 t2 k H1 IH1 H2 IH2 _]; intros Hf.
  - inversion Hf; subst. apply fork_depth_inv in Hp.
    destruct Hp as (d' & -> & _). simpl alive.
    assert (2 ^ d' <> 0)%nat by (apply Nat.pow_nonzero; lia).
    rewrite !Nat.pow_succ_r'. lia.
  - destruct (fork_depth_count H1) as [_ B1].
    destruct (fork_depth_count H2) as [_ B2].
    assert (2 ^ d <> 0)%nat by (apply Nat.pow_nonzero; lia).
    simpl alive. rewrite !Nat.pow_succ_r' in *.
    inversion Hf; subst.
    + specialize (IH1 ltac:(assumption)). lia.
    + specialize (IH2 ltac:(assumption)). lia.
Qed.

(** With room for [2 ^ (d + 1) - 1] threads, no fork nested at most [d]
    deep finds the process full. *)
Lemma fork_depth_not_starved (d : nat) (t : threads) :
  fork_depth_threads d t -> (2 ^ S d - 1 <= capacity)%nat -> ~ starved t.
Proof.
  intros Hd Hcap [Hf Hlt].
  pose proof (forking_alive Hd Hf). lia.
Qed.

(** ** Every schedule of confined threads computes the sequential result *)

Theorem all_runs_sequential (t : threads) :
  forall l r d st f,
    confined_threads l r t ->
    fork_depth_threads d t ->
    (2 ^ S d - 1 <= capacity)%nat ->
    run_threads t st = Some f ->
    all_runs (fun s => s = f) t st.
Proof.
  induction (Acc_threads t) as [t _ IH]. intros l r d st f Hc Hd Hcap Hrun.
  destruct (finished_dec t) as [->|Hnf].
  - apply all_runs_done. simpl in Hrun. congruence.
  - apply all_runs_step.
    + exact Hnf.
    + intros [Hf|Hf].
      * eapply run_threads_no_bad_access; eassumption.
      * eapply fork_depth_not_starved; eassumption.
    + eapply confined_not_racy; eassumption.
    + intros t' st' Hstep.
      destruct (step_preserves Hstep Hc (agree_refl l r st) Hrun)
        as (s' & Hrun' & Hc' & Heff).
      assert (s' = st') as ->.
      { destruct Heff as [[-> ->]|(a & i & v & _ & S1 & S2)]; congruence. }
      eapply IH;
        [eexists; eexists; eassumption | eassumption
        | eapply step_fork_depth; eassumption | exact Hcap | assumption].
Qed.

Lemma all_runs_weaken (P Q : state -> Prop) (t : threads) (st : state) :
  (forall s, P s -> Q s) -> all_runs P t st -> all_runs Q t st.
Proof.
  intros HPQ H. induction H as [st H | t st Hnf Hf Hr _ IH].
  - apply all_runs_done. auto.
  - apply all_runs_step; assumption.
Qed.

(** The form used below: a program confined to a range, with forks
    nested at most [d] deep and room for the threads that allows, whose
    sequential run ends in a state satisfying [Q]. *)
Lemma all_runs_of_run (l r : Z) (d : nat) (p : prog unit) (st f : state)
      (Q : state -> Prop) :
  confined l r (fun _ => True) p ->
  fork_depth d p ->
  (2 ^ S d - 1 <= capacity)%nat ->
  run p st = Some (tt, f) ->
  Q f ->
  all_runs Q (Run p) st.
Proof.
  intros Hc Hd Hcap Hrun HQ.
  apply all_runs_weaken with (P := fun s => s = f); [intros s ->; exact HQ|].
  apply all_runs_sequential with (l := l) (r := r) (d := d).
  - constructor. exact Hc.
  - constructor. exact Hd.
  - exact Hcap.
  - apply run_threads_run. exact Hrun.
Qed.

(** * The footprint of the sort *)

Lemma confined_bind (l r : Z) (X Y : Type) (Q : X -> Prop) (Q' : Y -> Prop)
      (p : prog X) (f : X -> prog Y) :
  confined l r Q p ->
  (forall x, Q x -> confined l r Q' (f x)) ->
  confined l r Q' (bind p f).
Proof.
  intros H. revert Y Q' f.
  induction H; intros Y Q' f Hf; simpl.
  - auto.
  - constructor.
  - constructor; auto.
  - constructor; auto.
  - econstructor; eauto.
Qed.

Lemma confined_checked (l r : Z) (R : Type) (Q : R -> Prop) (z : Z) (p : prog R) :
  confined l r Q p -> confined l r Q (checked z p).
Proof. intros H. unfold checked. destruct (in_int z); [assumption | constructor]. Qed.

Lemma confined_wider (l r : Z) (R : Type) (Q : R -> Prop) (p : prog R) :
  confined l r Q p ->
  forall l' r', l' <= l -> r <= r' -> confined l' r' Q p.
Proof.
  induction 1 as [l r R Q y Hy | l r R Q | l r R Q a i k Hi _ IH
                 | l r R Q a i v k Hi _ IH
                 | l r R Q m c1 c2 k Hm _ IH1 _ IH2 _ IH];
    intros l' r' Hl Hr.
  - constructor. assumption.
  - constructor.
  - constructor; [lia | auto].
  - constructor; [lia | auto].
  - apply confined_par with (m := m); [lia | | | ].
    + apply IH1; lia.
    + apply IH2; lia.
    + apply IH; lia.
Qed.

Lemma confined_loop_rest (lo hi last : Z) (n : nat) :
  forall i k,
    n = Z.to_nat (last - i + 1) ->
    lo <= i -> last <= hi -> lo <= k -> k + (last - i) <= hi ->
    confined lo hi
      (fun p => fst p = Z.max i (last + 1) /\ snd p = k + (fst p - i))
      (merge_loop_rest last i k).
Proof.
  induction n as [n IH] using lt_wf_ind.
  intros i k Hn Hi Hlast Hk Hkl.
  rewrite merge_loop_rest_eq. destruct (Z.leb_spec i last) as [H|H].
  - constructor; [lia|]. intros v.
    constructor; [lia|].
    do 2 apply confined_checked.
    eapply confined_weaken;
      [|eapply (IH (Z.to_nat (last - (i + 1) + 1))); try reflexivity; lia].
    simpl. intros [i' k']. simpl. lia.
  - constructor. simpl. lia.
Qed.

Lemma confined_loop_both (lo hi leftend rightend : Z) (n : nat) :
  forall i j k,
    n = (Z.to_nat (leftend - i + 1) + Z.to_nat (rightend - j + 1))%nat ->
    lo <= i <= leftend + 1 -> lo <= j <= rightend + 1 ->
    leftend <= hi -> rightend <= hi ->
    lo <= k -> k + (leftend - i + 1) + (rightend - j + 1) - 1 <= hi ->
    confined lo hi
      (fun p => i <= fst (fst p) <= leftend + 1 /\
                j <= snd (fst p) <= rightend + 1 /\
                snd p = k + (fst (fst p) - i) + (snd (fst p) - j))
      (merge_loop_both leftend rightend i j k).
Proof.
  induction n as [n IH] using lt_wf_ind.
  intros i j k Hn Hi Hj Hle Hre Hk Hkl.
  rewrite merge_loop_both_eq.
  destruct (Z.leb_spec i leftend) as [H1|H1];
    destruct (Z.leb_spec j rightend) as [H2|H2]; cbn [andb];
    try (constructor; simpl; lia).
  constructor; [lia|]. intros x.
  constructor; [lia|]. intros y.
  destruct (key x <=? key y).
  - constructor; [lia|]. intros v.
    constructor; [lia|].
    do 2 apply confined_checked.
    eapply confined_weaken;
      [|eapply (IH (Z.to_nat (leftend - (i + 1) + 1)
                    + Z.to_nat (rightend - j + 1))%nat);
        try reflexivity; lia].
    simpl. intros [[i' j'] k']. simpl. lia.
  - constructor; [lia|]. intros v.
    constructor; [lia|].
    do 2 apply confined_checked.
    eapply confined_weaken;
      [|eapply (IH (Z.to_nat (leftend - i + 1)
                    + Z.to_nat (rightend - (j + 1) + 1))%nat);
        try reflexivity; lia].
    simpl. intros [[i' j'] k']. simpl. lia.
Qed.

Lemma confined_copy_back (lo hi : Z) (n : nat) :
  forall i, lo <= i -> i + Z.of_nat n - 1 <= hi ->
            confined lo hi (fun _ => True) (copy_back n i).
Proof.
  induction n as [|n IH]; intros i Hi Hn; simpl.
  - constructor. exact I.
  - constructor; [lia|]. intros v. constructor; [lia|]. apply IH; lia.
Qed.

(** [merge] on adjacent ranges touches the cells of the two ranges only. *)
Lemma confined_merge (leftstart leftend rightstart rightend : Z) :
  rightstart = leftend + 1 ->
  leftstart <= rightstart <= rightend + 1 ->
  confined leftstart rightend (fun _ => True)
           (merge leftstart leftend rightstart rightend).
Proof.
  intros Hadj Hord. unfold merge.
  eapply confined_bind.
  { eapply (confined_loop_both (lo := leftstart) (hi := rightend));
      try reflexivity; lia. }
  intros [[i j] k]. simpl. intros (Hi & Hj & Hk).
  eapply confined_bind.
  { eapply (confined_loop_rest (lo := leftstart) (hi := rightend));
      try reflexivity; lia. }
  intros [i' k']. simpl. intros (Hi' & Hk').
  eapply confined_bind.
  { eapply (confined_loop_rest (lo := leftstart) (hi := rightend));
      try reflexivity; lia. }
  intros [j' k'']. simpl. intros _.
  do 2 apply confined_checked.
  unfold memcpy_A_B.
  destruct (Z.ltb_spec (rightend - leftstart + 1) 0); [constructor|].
  apply confined_copy_back; lia.
Qed.

Lemma confined_my_mergesort (l r : Z) :
  confined l r (fun _ => True) (my_mergesort l r).
Proof.
  remember (Z.to_nat (r - l)) as n eqn:Hn.
  revert l r Hn. induction n as [n IH] using lt_wf_ind. intros l r Hn.
  rewrite my_mergesort_eq.
  destruct (l >=? r) eqn:E; [constructor; exact I|].
  apply geb_false_lt in E. pose proof (midpoint_bounds E) as Hm.
  do 2 apply confined_checked.
  eapply confined_bind.
  { eapply confined_wider;
      [eapply (IH (Z.to_nat (midpoint l r - l))); [lia|reflexivity] | lia | lia]. }
  intros _ _. apply confined_checked.
  eapply confined_bind.
  { eapply confined_wider;
      [eapply (IH (Z.to_nat (r - (midpoint l r + 1)))); [lia|reflexivity]
      | lia | lia]. }
  intros _ _. apply confined_merge; lia.
Qed.

(** The two threads of every fork of [parallel_mergesort] keep to the
    two halves of the parent's range. *)
Lemma confined_parallel_mergesort (cutoff : Z) (a : argument) :
  confined (left a) (right a) (fun _ => True) (parallel_mergesort cutoff a).
Proof.
  remember (Z.to_nat (right a - left a)) as n eqn:Hn.
  revert a Hn. induction n as [n IH] using lt_wf_ind. intros [l r lv] Hn.
  cbn [left right level] in *.
  rewrite parallel_mergesort_eq. cbn [left right level].
  destruct (l >=? r) eqn:E; [constructor; exact I|].
  destruct (lv >=? cutoff); [apply confined_my_mergesort|].
  apply geb_false_lt in E. pose proof (midpoint_bounds E) as Hm.
  do 4 apply confined_checked.
  apply confined_par with (m := midpoint l r); [lia | | | ].
  - apply (IH (Z.to_nat (midpoint l r - l)) ltac:(lia)
              (leftArg (mk_argument l r lv))).
    reflexivity.
  - apply (IH (Z.to_nat (r - (midpoint l r + 1))) ltac:(lia)
              (rightArg (mk_argument l r lv))).
    reflexivity.
  - apply confined_merge; lia.
Qed.

(** * The sort on a state *)

Lemma range_split (xs : list elt) (l r : Z) :
  0 <= l -> l <= r + 1 -> r < Z.of_nat (length xs) ->
  xs = firstn (Z.to_nat l) xs ++ slice l r xs ++ skipn (Z.to_nat (r + 1)) xs.
Proof.
  intros Hl Hr Hlen. unfold slice.
  replace (Z.to_nat (r + 1)) with (Z.to_nat (r - l + 1) + Z.to_nat l)%nat by lia.
  rewrite <- skipn_skipn, firstn_skipn, firstn_skipn. reflexivity.
Qed.

Lemma length_slice (xs : list elt) (l r : Z) :
  0 <= l -> l <= r + 1 -> r < Z.of_nat (length xs) ->
  length (slice l r xs) = Z.to_nat (r - l + 1).
Proof.
  intros Hl Hr Hlen. unfold slice. rewrite length_firstn, length_skipn. lia.
Qed.

Lemma slice_rebuilt (ap m az : list elt) (l r : Z) :
  l = Z.of_nat (length ap) -> r - l + 1 = Z.of_nat (length m) ->
  slice l r (ap ++ m ++ az) = m.
Proof.
  intros Hl Hm. unfold slice.
  rewrite (skipn_app_exact ap (m ++ az)) by lia.
  apply firstn_app_exact. lia.
Qed.

Lemma firstn_plus (n m : nat) (xs : list elt) :
  firstn (n + m) xs = firstn n xs ++ firstn m (skipn n xs).
Proof.
  revert xs. induction n as [|n IH]; intros xs; [reflexivity|].
  destruct xs as [|x xs]; simpl.
  - rewrite firstn_nil. reflexivity.
  - rewrite IH. reflexivity.
Qed.

Lemma slice_adjacent (xs : list elt) (l m r : Z) :
  0 <= l -> l <= m + 1 -> m <= r -> r < Z.of_nat (length xs) ->
  slice l r xs = slice l m xs ++ slice (m + 1) r xs.
Proof.
  intros Hl Hm Hr Hlen. unfold slice.
  replace (Z.to_nat (r - l + 1))
    with (Z.to_nat (m - l + 1) + Z.to_nat (r - (m + 1) + 1))%nat by lia.
  rewrite firstn_plus. f_equal.
  rewrite skipn_skipn. do 2 f_equal. lia.
Qed.

Lemma slice_all (xs : list elt) :
  slice 0 (Z.of_nat (length xs) - 1) xs = xs.
Proof.
  unfold slice. simpl skipn.
  replace (Z.to_nat (Z.of_nat (length xs) - 1 - 0 + 1)) with (length xs) by lia.
  apply firstn_all.
Qed.

Lemma state_eta (st : state) : st = {| A := A st; B := B st |}.
Proof. destruct st. reflexivity. Qed.

(** [merge] on two adjacent ranges that lie inside both arrays. *)
Lemma merge_on_state (st : state) (leftstart leftend rightstart rightend : Z) :
  rightstart = leftend + 1 ->
  0 <= leftstart <= rightstart ->
  rightstart <= rightend + 1 ->
  rightend < Z.of_nat (length (A st)) ->
  rightend < Z.of_nat (length (B st)) ->
  rightend + 1 <= int_max ->
  run (merge leftstart leftend rightstart rightend) st
  = Some (tt,
          {| A := firstn (Z.to_nat leftstart) (A st)
                  ++ merge_lists (slice leftstart leftend (A st))
                                 (slice rightstart rightend (A st))
                  ++ skipn (Z.to_nat (rightend + 1)) (A st);
             B := firstn (Z.to_nat leftstart) (B st)
                  ++ merge_lists (slice leftstart leftend (A st))
                                 (slice rightstart rightend (A st))
                  ++ skipn (Z.to_nat (rightend + 1)) (B st) |}).
Proof.
  intros Hadj Hls Hrs HA HB Bnd.
  rewrite (state_eta st) at 1.
  rewrite (@range_split (A st) leftstart rightend) at 1 by lia.
  rewrite (@range_split (B st) leftstart rightend) at 1 by lia.
  rewrite (@slice_adjacent (A st) leftstart leftend rightend) by lia.
  rewrite <- Hadj, <- app_assoc.
  apply run_merge;
    rewrite ?length_firstn, ?length_slice by lia; lia.
Qed.

Lemma my_mergesort_on_state (st : state) (l r : Z) :
  0 <= l -> l <= r + 1 ->
  r < Z.of_nat (length (A st)) ->
  r < Z.of_nat (length (B st)) ->
  r + 1 <= int_max ->
  run (my_mergesort l r) st
  = Some (tt,
          {| A := firstn (Z.to_nat l) (A st)
                  ++ sort_list (slice l r (A st))
                  ++ skipn (Z.to_nat (r + 1)) (A st);
             B := firstn (Z.to_nat l) (B st)
                  ++ scratch_after (slice l r (A st)) (slice l r (B st))
                  ++ skipn (Z.to_nat (r + 1)) (B st) |}).
Proof.
  intros Hl Hr HA HB Bnd.
  rewrite (state_eta st) at 1.
  rewrite (@range_split (A st) l r) at 1 by lia.
  rewrite (@range_split (B st) l r) at 1 by lia.
  apply run_my_mergesort;
    rewrite ?length_firstn, ?length_slice by lia; lia.
Qed.

(** The whole array, from the root descriptor. *)
Lemma run_sort_root (cutoff : Z) (st : state) (N : Z) :
  N = Z.of_nat (length (A st)) ->
  N <= int_max ->
  length (B st) = length (A st) ->
  cutoff <= int_max ->
  run (parallel_mergesort cutoff (buildArgs 0 (N - 1) 0)) st
  = Some (tt, {| A := sort_list (A st);
                 B := scratch_after (A st) (B st) |}).
Proof.
  intros HN Bnd HB Hc.
  rewrite run_parallel_mergesort
    by (cbn [level buildArgs]; unfold int_min; lia).
  cbn [left right buildArgs].
  rewrite my_mergesort_on_state by lia.
  subst N. rewrite slice_all.
  assert (slice 0 (Z.of_nat (length (A st)) - 1) (B st) = B st) as ->
    by (rewrite <- HB; apply slice_all).
  rewrite !skipn_all2 by lia.
  simpl. rewrite !app_nil_r. reflexivity.
Qed.

Lemma all_runs_sort_root (cutoff : Z) (st : state) (N : Z)
      (Q : state -> Prop) :
  N = Z.of_nat (length (A st)) ->
  N <= int_max ->
  length (B st) = length (A st) ->
  cutoff <= int_max ->
  (2 ^ S (Z.to_nat cutoff) - 1 <= capacity)%nat ->
  Q {| A := sort_list (A st); B := scratch_after (A st) (B st) |} ->
  all_runs Q (Run (parallel_mergesort cutoff (buildArgs 0 (N - 1) 0))) st.
Proof.
  intros HN Bnd HB Hc Hcap HQ.
  eapply all_runs_of_run with (l := 0) (r := N - 1) (d := Z.to_nat cutoff).
  - apply (confined_parallel_mergesort cutoff (buildArgs 0 (N - 1) 0)).
  - pose proof (fork_depth_parallel_mergesort cutoff (buildArgs 0 (N - 1) 0))
      as Hd.
    cbn [level buildArgs] in Hd. rewrite Z.sub_0_r in Hd. exact Hd.
  - exact Hcap.
  - apply run_sort_root; assumption.
  - exact HQ.
Qed.

Lemma ascending_adjacent (xs : list elt) :
  ascending xs ->
  forall n x y, nth_error xs n = Some x -> nth_error xs (S n) = Some y ->
                key x <= key y.
Proof.
  induction 1 as [|a xs Hs IH Hd]; intros n x y Hx Hy.
  - destruct n; discriminate.
  - destruct n as [|n].
    + simpl in Hx, Hy. inversion Hx; subst.
      destruct xs as [|b xs]; [discriminate|]. simpl in Hy.
      inversion Hy; subst. inversion Hd. assumption.
    + simpl in Hx. eapply IH; [exact Hx | exact Hy].
Qed.

Lemma ascending_sorted_range (xs : list elt) :
  ascending xs -> sorted_range 0 (Z.of_nat (length xs) - 1) xs.
Proof.
  intros Hs i Hi Hi1. unfold read.
  destruct (Z.ltb_spec i 0) as [|_]; [lia|].
  destruct (Z.ltb_spec (i + 1) 0) as [|_]; [lia|].
  replace (Z.to_nat (i + 1)) with (S (Z.to_nat i)) by lia.
  destruct (nth_error xs (Z.to_nat i)) as [x|] eqn:Ex.
  2:{ apply nth_error_None in Ex. lia. }
  destruct (nth_error xs (S (Z.to_nat i))) as [y|] eqn:Ey.
  2:{ apply nth_error_None in Ey. lia. }
  exists x, y. repeat split. eapply ascending_adjacent; eassumption.
Qed.

(** ** What [all_runs] says about executions *)

Lemma faulty_left (t1 t2 : threads) (k : prog unit) (st : state) :
  faulty t1 st -> faulty (Join t1 t2 k) st.
Proof.
  intros [H|[H1 H2]].
  - left. apply bad_left. exact H.
  - right. split; [apply forking_left; exact H1 | simpl alive; lia].
Qed.

Lemma faulty_right (t1 t2 : threads) (k : prog unit) (st : state) :
  faulty t2 st -> faulty (Join t1 t2 k) st.
Proof.
  intros [H|[H1 H2]].
  - left. apply bad_right. exact H.
  - right. split; [apply forking_right; exact H1 | simpl alive; lia].
Qed.

Lemma step_progress (t : threads) (st : state) :
  t <> finished -> ~ faulty t st -> exists t' st', step t st t' st'.
Proof.
  induction t as [p | t1 IH1 t2 IH2 k]; intros Hnf Hf.
  - destruct p as [[] | | a i k | a i v k | c1 c2 k].
    + exfalso. apply Hnf. reflexivity.
    + exfalso. apply Hf. left. constructor.
    + destruct (load a i st) as [v|] eqn:E.
      * eexists; eexists. apply step_load. eassumption.
      * exfalso. apply Hf. left. apply bad_load. assumption.
    + destruct (store a i v st) as [s'|] eqn:E.
      * eexists; eexists. apply step_store. eassumption.
      * exfalso. apply Hf. left. apply bad_store. assumption.
    + eexists; eexists. apply step_fork.
  - destruct (finished_dec t1) as [->|N1].
    + destruct (finished_dec t2) as [->|N2].
      * eexists; eexists. apply step_join.
      * destruct (IH2 N2) as (t' & st' & Hs);
          [intros F; apply Hf; apply faulty_right; exact F|].
        eexists; eexists. apply step_right. eassumption.
    + destruct (IH1 N1) as (t' & st' & Hs);
        [intros F; apply Hf; apply faulty_left; exact F|].
      eexists; eexists. apply step_left. eassumption.
Qed.

(** Without room for its two children a fan-out is an undefined
    operation, whatever the data: the hypothesis on [capacity] in the
    results on the threaded sort cannot be dropped. *)
Lemma fan_out_without_room (cutoff : Z) (a : argument) (st : state)
      (Q : state -> Prop) :
  left a < right a ->
  level a < cutoff ->
  0 <= left a ->
  right a <= int_max ->
  int_min <= level a ->
  cutoff <= int_max ->
  (capacity < 3)%nat ->
  ~ all_runs Q (Run (parallel_mergesort cutoff a)) st.
Proof.
  intros Hlt Hlv Hl Hr Hlv0 Hc Hcap Hall.
  pose proof (midpoint_bounds Hlt) as Hm.
  rewrite parallel_mergesort_eq in Hall.
  destruct (left a >=? right a) eqn:E1; [apply geb_true_ge in E1; lia|].
  destruct (level a >=? cutoff) eqn:E2; [apply geb_true_ge in E2; lia|].
  unfold checked in Hall.
  rewrite !in_int_true in Hall by (unfold int_min, int_max in *; lia).
  inversion Hall as [|? ? _ Hf _ _]; subst.
  apply Hf. right. split; [apply forking_here | simpl alive; lia].
Qed.

Lemma finished_no_step (st : state) (t' : threads) (st' : state) :
  ~ step finished st t' st'.
Proof. intros H. inversion H. Qed.

(** Whatever the schedule, a terminated execution ends in [Q]. *)
Lemma all_runs_final (Q : state -> Prop) (t : threads) (st : state) :
  all_runs Q t st ->
  forall st', steps t st finished st' -> Q st'.
Proof.
  induction 1 as [st HQ | t st Hnf _ _ _ IH]; intros st' Hsteps.
  - inversion Hsteps; subst; [assumption|].
    exfalso. eapply finished_no_step. eassumption.
  - inversion Hsteps; subst; [contradiction|]. eapply IH; eassumption.
Qed.

(** And some execution does terminate. *)
Lemma all_runs_terminates (Q : state -> Prop) (t : threads) (st : state) :
  all_runs Q t st -> exists st', steps t st finished st' /\ Q st'.
Proof.
  induction 1 as [st HQ | t st Hnf Hf _ _ IH].
  - exists st. split; [constructor | assumption].
  - destruct (step_progress Hnf Hf) as (t' & s' & Hs).
    destruct (IH _ _ Hs) as (st' & Hsteps & HQ).
    exists st'. split; [econstructor; eassumption | assumption].
Qed.

Lemma is_sorted_loop_eq (size i : Z) :
  is_sorted_loop size i =
  if i <? size - 1
  then Load ArrA i (fun x =>
       checked (i + 1)
         (Load ArrA (i + 1) (fun y =>
          if key x >? key y then Ret false
          else is_sorted_loop size (i + 1))))
  else Ret true.
Proof.
  rewrite is_sorted_loop_equation_1.
  destruct (inspect (i <? size - 1)) as [[] e]; cbn; rewrite e; reflexivity.
Qed.

(** * The properties of the specification *)

(** C1 (sortedness).  For a dataset of [N >= 1] cells, a scratch buffer
    of the same length and any cutoff, provided the process can hold the
    [2 ^ (cutoff + 1) - 1] threads of a full fan-out (so that no
    [pthread_create] and no [malloc] of a descriptor fails), every
    schedule of [parallel_mergesort] on the root descriptor [{0, N-1, 0}]
    returns, and then every adjacent pair [i], [i+1] of [[0, N-1]] has
    [A[i] <= A[i+1]]. *)
Theorem parallel_mergesort_sorted (cutoff : Z) (st : state) (N : Z) :
  N = Z.of_nat (length (A st)) ->
  1 <= N <= int_max ->
  length (B st) = length (A st) ->
  0 <= cutoff <= int_max ->
  (2 ^ S (Z.to_nat cutoff) - 1 <= capacity)%nat ->
  all_runs (fun st' => sorted_range 0 (N - 1) (A st'))
           (Run (parallel_mergesort cutoff (buildArgs 0 (N - 1) 0))) st.
Proof.
  intros HN HN1 HB Hc Hcap.
  apply all_runs_sort_root; try assumption; try lia.
  cbn [A]. subst N. rewrite <- (length_sort_list (A st)).
  apply ascending_sorted_range. apply sort_list_ascending.
Qed.

(** C2 (permutation).  For any dataset and cutoff, provided the process
    can hold the [2 ^ (cutoff + 1) - 1] threads of a full fan-out (so
    that every thread and descriptor is created), the contents of [A]
    when [parallel_mergesort] returns are a permutation of its contents
    before the call. *)
Theorem parallel_mergesort_permutation (cutoff : Z) (st : state) (N : Z) :
  N = Z.of_nat (length (A st)) ->
  N <= int_max ->
  length (B st) = length (A st) ->
  0 <= cutoff <= int_max ->
  (2 ^ S (Z.to_nat cutoff) - 1 <= capacity)%nat ->
  all_runs (fun st' => Permutation (A st) (A st'))
           (Run (parallel_mergesort cutoff (buildArgs 0 (N - 1) 0))) st.
Proof.
  intros HN HN1 HB Hc Hcap.
  apply all_runs_sort_root; try assumption; try lia.
  cbn [A]. apply sort_list_permutation.
Qed.

(** C3 (merge).  When [rightstart = leftend + 1] and the two ranges are
    sorted, [merge] returns with [A[leftstart..rightend]] sorted, and it
    is stable: for every key, the cells of the merged range with that
    key are those of the left range, in their order, followed by those
    of the right range, in their order. *)
Theorem merge_sorted_stable (st : state)
        (leftstart leftend rightstart rightend : Z) :
  rightstart = leftend + 1 ->
  0 <= leftstart <= rightstart ->
  rightstart <= rightend + 1 ->
  rightend < Z.of_nat (length (A st)) ->
  rightend < Z.of_nat (length (B st)) ->
  rightend + 1 <= int_max ->
  ascending (slice leftstart leftend (A st)) ->
  ascending (slice rightstart rightend (A st)) ->
  exists st',
    run (merge leftstart leftend rightstart rightend) st = Some (tt, st') /\
    ascending (slice leftstart rightend (A st')) /\
    forall c,
      with_key c (slice leftstart rightend (A st'))
      = with_key c (slice leftstart leftend (A st))
        ++ with_key c (slice rightstart rightend (A st)).
Proof.
  intros Hadj Hls Hrs HA HB Bnd Hs1 Hs2.
  eexists. split; [apply merge_on_state; assumption|].
  cbn [A].
  rewrite slice_rebuilt.
  - split.
    + apply merge_lists_ascending; assumption.
    + intros c. apply merge_lists_stable. assumption.
  - rewrite length_firstn. lia.
  - rewrite length_merge_lists, !length_slice by lia. lia.
Qed.

(** C4 (cutoff invariance).  The serial [my_mergesort] on the whole
    array returns some state [f], and for any two cutoffs [c1] and [c2]
    such that the process can hold the [2 ^ (c + 1) - 1] threads of a
    full fan-out of either (so that every thread and descriptor is
    created), every schedule of [parallel_mergesort] returns in exactly
    that state. *)
Theorem parallel_mergesort_cutoff_invariant (c1 c2 : Z) (st : state) (N : Z) :
  N = Z.of_nat (length (A st)) ->
  N <= int_max ->
  length (B st) = length (A st) ->
  c1 <= int_max ->
  c2 <= int_max ->
  (2 ^ S (Z.to_nat c1) - 1 <= capacity)%nat ->
  (2 ^ S (Z.to_nat c2) - 1 <= capacity)%nat ->
  exists f,
    run (my_mergesort 0 (N - 1)) st = Some (tt, f) /\
    run (parallel_mergesort 0 (buildArgs 0 (N - 1) 0)) st = Some (tt, f) /\
    all_runs (fun st' => st' = f)
             (Run (parallel_mergesort c1 (buildArgs 0 (N - 1) 0))) st /\
    all_runs (fun st' => st' = f)
             (Run (parallel_mergesort c2 (buildArgs 0 (N - 1) 0))) st.
Proof.
  intros HN HN1 HB H1 H2 Hcap1 Hcap2.
  exists {| A := sort_list (A st); B := scratch_after (A st) (B st) |}.
  split; [|split; [|split]].
  - assert (0 <= int_max) as H0 by (unfold int_max; lia).
    pose proof (run_sort_root (cutoff := 0) st HN HN1 HB H0) as E.
    rewrite run_parallel_mergesort in E
      by (cbn [level buildArgs]; unfold int_min; lia).
    exact E.
  - apply run_sort_root; try assumption. unfold int_max. lia.
  - apply all_runs_sort_root; try assumption. reflexivity.
  - apply all_runs_sort_root; try assumption. reflexivity.
Qed.

Lemma sort_call_wf : well_founded sort_call.
Proof.
  assert (forall n l r, Z.to_nat (r - l) = n -> Acc sort_call (l, r)) as H.
  { induction n as [n IH] using lt_wf_ind. intros l r Hn.
    constructor. intros [l' r'] Hcall.
    inversion Hcall as [? ? Hlt | ? ? Hlt]; subst;
      pose proof (midpoint_bounds Hlt).
    - apply (IH (Z.to_nat (midpoint l r - l))); [lia | reflexivity].
    - apply (IH (Z.to_nat (r - (midpoint l r + 1)))); [lia | reflexivity]. }
  intros [l r]. eapply H. reflexivity.
Qed.

(** C5 (split and termination).  For [left < right] the split point is
    [left + (right - left) / 2] with the division rounded down, and it
    leaves two non-empty halves, each strictly shorter than the range;
    for [left >= right] the call does nothing; the recursive calls are
    well founded, every execution of [my_mergesort] is finite, and on a
    range that lies inside both arrays the call returns. *)
Theorem my_mergesort_split_terminates (l r : Z) :
  (l < r ->
   midpoint l r = l + (r - l) / 2 /\
   l <= midpoint l r /\ midpoint l r + 1 <= r /\
   midpoint l r - l + 1 < r - l + 1 /\
   r - (midpoint l r + 1) + 1 < r - l + 1) /\
  (r <= l -> forall st, run (my_mergesort l r) st = Some (tt, st)) /\
  Acc sort_call (l, r) /\
  Acc next (Run (my_mergesort l r)) /\
  (forall st,
     0 <= l -> l <= r + 1 ->
     r < Z.of_nat (length (A st)) -> r < Z.of_nat (length (B st)) ->
     r + 1 <= int_max ->
     exists st', run (my_mergesort l r) st = Some (tt, st')).
Proof.
  split; [|split; [|split; [|split]]].
  - intros H. pose proof (midpoint_bounds H).
    split; [|lia]. unfold midpoint. rewrite Z.quot_div_nonneg by lia.
    reflexivity.
  - intros H st. rewrite my_mergesort_eq.
    destruct (l >=? r) eqn:E; [reflexivity|].
    apply geb_false_lt in E. lia.
  - apply sort_call_wf.
  - apply Acc_run.
  - intros st Hl Hr HA HB Bnd. eexists.
    apply my_mergesort_on_state; assumption.
Qed.

(** C6 (frame of merge).  A call of [merge] on adjacent ranges returns,
    and every cell of [A] and of [B] outside [[leftstart, rightend]]
    holds the value it held before. *)
Theorem merge_frame (st : state)
        (leftstart leftend rightstart rightend : Z) :
  rightstart = leftend + 1 ->
  0 <= leftstart <= rightstart ->
  rightstart <= rightend + 1 ->
  rightend < Z.of_nat (length (A st)) ->
  rightend < Z.of_nat (length (B st)) ->
  rightend + 1 <= int_max ->
  exists st',
    run (merge leftstart leftend rightstart rightend) st = Some (tt, st') /\
    length (A st') = length (A st) /\
    length (B st') = length (B st) /\
    forall a i, ~ leftstart <= i <= rightend -> load a i st' = load a i st.
Proof.
  intros Hadj Hls Hrs HA HB Bnd.
  eexists. split; [apply merge_on_state; assumption|].
  assert (confined leftstart rightend (fun _ => True)
            (merge leftstart leftend rightstart rightend)) as Hc
    by (apply confined_merge; lia).
  destruct (confined_frame Hc _
              (@merge_on_state st _ _ _ _ Hadj Hls Hrs HA HB Bnd))
    as (LA & LB & Hout).
  split; [symmetry; exact LA|]. split; [symmetry; exact LB|].
  intros a i Hi. symmetry. apply Hout. exact Hi.
Qed.

(** C7 (trivial range).  For a descriptor with [left >= right] and any
    cutoff, [parallel_mergesort] is a plain return: it performs no
    access, and every cell of both arrays is unchanged.  The driver's
    check of a one-cell dataset answers [true]. *)
Theorem parallel_mergesort_trivial (cutoff : Z) (a : argument) (st : state) :
  right a <= left a ->
  parallel_mergesort cutoff a = Ret tt /\
  all_runs (fun st' => st' = st) (Run (parallel_mergesort cutoff a)) st /\
  run (is_sorted 1) st = Some (true, st).
Proof.
  intros H.
  assert (parallel_mergesort cutoff a = Ret tt) as E.
  { rewrite parallel_mergesort_eq.
    destruct (left a >=? right a) eqn:E; [reflexivity|].
    apply geb_false_lt in E. lia. }
  split; [exact E|]. split.
  - rewrite E. apply all_runs_done. reflexivity.
  - unfold is_sorted. rewrite run_checked by (unfold int_min, int_max; lia).
    rewrite is_sorted_loop_eq. reflexivity.
Qed.

Lemma spawned_level (cutoff : Z) (a c : argument) :
  spawned cutoff a c -> level c = level a + 1.
Proof. intros H. destruct H; reflexivity. Qed.

Lemma spawned_range (cutoff : Z) (a c : argument) :
  spawned cutoff a c -> left a <= left c /\ right c <= right a.
Proof.
  intros H.
  destruct H as [a Hlt _ | a Hlt _]; pose proof (midpoint_bounds Hlt);
    simpl; lia.
Qed.

(** C8 (fan-out).  In a fan-out step the two threads run
    [parallel_mergesort] on [{left, mid, level+1}] and
    [{mid+1, right, level+1}]: the two ranges do not overlap, their
    union is the parent's range, the level grows by exactly one, and
    along any chain of fan-out steps it never decreases. *)
Theorem fan_out_children (cutoff : Z) (a : argument) :
  left a < right a ->
  level a < cutoff ->
  0 <= left a ->
  right a <= int_max ->
  int_min <= level a ->
  cutoff <= int_max ->
  parallel_mergesort cutoff a
  = Par (parallel_mergesort cutoff (leftArg a))
        (parallel_mergesort cutoff (rightArg a))
        (merge (left a) (right (leftArg a)) (left (rightArg a)) (right a)) /\
  leftArg a = {| left := left a;
                 right := midpoint (left a) (right a);
                 level := level a + 1 |} /\
  rightArg a = {| left := midpoint (left a) (right a) + 1;
                  right := right a;
                  level := level a + 1 |} /\
  (forall i, left a <= i <= right a <->
             left (leftArg a) <= i <= right (leftArg a) \/
             left (rightArg a) <= i <= right (rightArg a)) /\
  (forall i, ~ (left (leftArg a) <= i <= right (leftArg a) /\
                left (rightArg a) <= i <= right (rightArg a))) /\
  (forall c, descends cutoff a c ->
             level a <= level c /\ left a <= left c /\ right c <= right a).
Proof.
  intros Hlt Hlv Hl Hr Hlv0 Hc.
  pose proof (midpoint_bounds Hlt) as Hm.
  split; [|split; [reflexivity|split; [reflexivity|split; [|split]]]].
  - rewrite parallel_mergesort_eq.
    destruct (left a >=? right a) eqn:E1; [apply geb_true_ge in E1; lia|].
    destruct (level a >=? cutoff) eqn:E2; [apply geb_true_ge in E2; lia|].
    unfold checked.
    rewrite !in_int_true by (unfold int_min, int_max in *; lia).
    reflexivity.
  - intros i. simpl. lia.
  - intros i. simpl. lia.
  - induction 1 as [|b c _ IH Hs].
    + lia.
    + pose proof (spawned_level Hs). pose proof (spawned_range Hs). lia.
Qed.

(** C9 (idempotence).  On a dataset that is already in ascending order,
    provided the process can hold the [2 ^ (cutoff + 1) - 1] threads of
    a full fan-out (so that every thread and descriptor is created),
    every schedule of the sort returns with [A] equal to the input, cell
    for cell. *)
Theorem parallel_mergesort_idempotent (cutoff : Z) (st : state) (N : Z) :
  N = Z.of_nat (length (A st)) ->
  N <= int_max ->
  length (B st) = length (A st) ->
  0 <= cutoff <= int_max ->
  (2 ^ S (Z.to_nat cutoff) - 1 <= capacity)%nat ->
  ascending (A st) ->
  all_runs (fun st' => A st' = A st)
           (Run (parallel_mergesort cutoff (buildArgs 0 (N - 1) 0))) st.
Proof.
  intros HN HN1 HB Hc Hcap Hs.
  apply all_runs_sort_root; try assumption; try lia.
  cbn [A]. apply sort_list_sorted_input. assumption.
Qed.

(** C10 (scratch independence).  Two runs of the sort that start with the
    same dataset and cutoff but different contents of [B] return with
    the same [A], provided the process can hold the
    [2 ^ (cutoff + 1) - 1] threads of a full fan-out (so that every
    thread and descriptor is created); already one call of [merge]
    leaves in [A] contents that do not depend on [B]. *)
Theorem scratch_independent (cutoff : Z) (st1 st2 : state) (N : Z)
        (leftstart leftend rightstart rightend : Z) :
  A st1 = A st2 ->
  N = Z.of_nat (length (A st1)) ->
  N <= int_max ->
  length (B st1) = length (A st1) ->
  length (B st2) = length (A st2) ->
  0 <= cutoff <= int_max ->
  (2 ^ S (Z.to_nat cutoff) - 1 <= capacity)%nat ->
  rightstart = leftend + 1 ->
  0 <= leftstart <= rightstart ->
  rightstart <= rightend + 1 ->
  rightend < N ->
  exists out mout,
    all_runs (fun st' => A st' = out)
             (Run (parallel_mergesort cutoff (buildArgs 0 (N - 1) 0))) st1 /\
    all_runs (fun st' => A st' = out)
             (Run (parallel_mergesort cutoff (buildArgs 0 (N - 1) 0))) st2 /\
    option_map (fun x => A (snd x))
               (run (merge leftstart leftend rightstart rightend) st1)
    = Some mout /\
    option_map (fun x => A (snd x))
               (run (merge leftstart leftend rightstart rightend) st2)
    = Some mout.
Proof.
  intros HA HN HN1 HB1 HB2 Hc Hcap Hadj Hls Hrs Hre.
  assert (N = Z.of_nat (length (A st2))) as HN2 by (rewrite <- HA; exact HN).
  exists (sort_list (A st1)).
  exists (firstn (Z.to_nat leftstart) (A st1)
          ++ merge_lists (slice leftstart leftend (A st1))
                         (slice rightstart rightend (A st1))
          ++ skipn (Z.to_nat (rightend + 1)) (A st1)).
  split; [|split; [|split]].
  - apply all_runs_sort_root; try assumption; try lia. reflexivity.
  - apply all_runs_sort_root; try assumption; try lia.
    cbn [A]. rewrite HA. reflexivity.
  - rewrite merge_on_state by lia. reflexivity.
  - rewrite merge_on_state by lia. cbn [option_map snd A].
    rewrite HA. reflexivity.
Qed.

(** * Further properties of the code *)

(** ** Any run keeps the lengths of the arrays *)

Lemma run_lengths (R : Type) (p : prog R) :
  forall st x st',
    run p st = Some (x, st') ->
    length (A st') = length (A st) /\ length (B st') = length (B st).
Proof.
  induction p as [R x | R | R a i k IH | R a i v k IH | R c1 IH1 c2 IH2 k IH];
    intros st y st' Hrun; simpl in Hrun.
  - inversion Hrun. subst. split; reflexivity.
  - discriminate.
  - destruct (load a i st); [eapply IH; eassumption | discriminate].
  - destruct (store a i v st) as [s1|] eqn:E; [|discriminate].
    destruct (store_lengths _ _ _ _ E) as [HA HB].
    destruct (IH _ _ _ Hrun) as [HA' HB']. split; congruence.
  - destruct (run c1 st) as [[[] s1]|] eqn:E1; [|discriminate].
    destruct (run c2 s1) as [[[] s2]|] eqn:E2; [|discriminate].
    destruct (IH1 _ _ _ E1) as [HA1 HB1].
    destruct (IH2 _ _ _ E2) as [HA2 HB2].
    destruct (IH _ _ _ Hrun) as [HA3 HB3]. split; congruence.
Qed.

Lemma run_bind_some (X Y : Type) (p : prog X) (f : X -> prog Y)
      (st : state) (y : Y) (st' : state) :
  run (bind p f) st = Some (y, st') ->
  exists x s1, run p st = Some (x, s1) /\ run (f x) s1 = Some (y, st').
Proof.
  rewrite run_bind. destruct (run p st) as [[x s1]|]; [|discriminate].
  intros H. exists x, s1. split; [reflexivity | exact H].
Qed.

Lemma run_checked_some (R : Type) (z : Z) (p : prog R)
      (st : state) (x : R) (st' : state) :
  run (checked z p) st = Some (x, st') ->
  in_int z = true /\ run p st = Some (x, st').
Proof.
  rewrite run_checked_if. destruct (in_int z); [|discriminate].
  intros H. split; [reflexivity | exact H].
Qed.

(** ** [merge] returns exactly on ranges inside both arrays *)

Lemma copy_back_in_bounds (n : nat) :
  forall i st x st',
    (0 < n)%nat ->
    run (copy_back n i) st = Some (x, st') ->
    0 <= i /\
    i + Z.of_nat n - 1 < Z.of_nat (length (A st)) /\
    i + Z.of_nat n - 1 < Z.of_nat (length (B st)).
Proof.
  induction n as [|n IH]; intros i st x st' Hn Hrun; [lia|].
  cbn [copy_back run] in Hrun.
  destruct (load ArrB i st) as [v|] eqn:EL; [|discriminate].
  destruct (store ArrA i v st) as [s1|] eqn:ES; [|discriminate].
  assert (0 <= i < Z.of_nat (length (B st))) as HB.
  { destruct (Z_le_dec 0 i) as [H0|H0];
      [destruct (Z_lt_dec i (Z.of_nat (length (B st)))) as [H1|H1];
       [lia|]|];
      exfalso;
      assert (load ArrB i st = None) as N
        by (apply (proj2 (load_none ArrB i st)); simpl; lia);
      congruence. }
  assert (0 <= i < Z.of_nat (length (A st))) as HA.
  { destruct (Z_le_dec 0 i) as [H0|H0];
      [destruct (Z_lt_dec i (Z.of_nat (length (A st)))) as [H1|H1];
       [lia|]|];
      exfalso;
      assert (store ArrA i v st = None) as N
        by (apply (proj2 (store_none ArrA i v st)); simpl; lia);
      congruence. }
  destruct n as [|n]; [lia|].
  destruct (store_lengths _ _ _ _ ES) as [LA LB].
  destruct (IH (i + 1) s1 x st' ltac:(lia) Hrun) as (_ & H1 & H2).
  rewrite LA in H1. rewrite LB in H2. lia.
Qed.

Lemma merge_in_bounds (st st' : state)
      (leftstart leftend rightstart rightend : Z) :
  leftstart <= rightend ->
  run (merge leftstart leftend rightstart rightend) st = Some (tt, st') ->
  0 <= leftstart /\
  rightend < Z.of_nat (length (A st)) /\
  rightend < Z.of_nat (length (B st)).
Proof.
  intros Hne Hrun. unfold merge in Hrun.
  apply run_bind_some in Hrun. destruct Hrun as ([[i j] k] & s1 & R1 & Hrun).
  apply run_bind_some in Hrun. destruct Hrun as ([i' k'] & s2 & R2 & Hrun).
  apply run_bind_some in Hrun. destruct Hrun as ([j' k''] & s3 & R3 & Hrun).
  apply run_checked_some in Hrun. destruct Hrun as [_ Hrun].
  apply run_checked_some in Hrun. destruct Hrun as [_ Hrun].
  unfold memcpy_A_B in Hrun.
  destruct (Z.ltb_spec (rightend - leftstart + 1) 0) as [|_]; [lia|].
  apply copy_back_in_bounds in Hrun; [|lia].
  destruct (run_lengths _ _ R1) as [A1 B1].
  destruct (run_lengths _ _ R2) as [A2 B2].
  destruct (run_lengths _ _ R3) as [A3 B3].
  rewrite A3, A2, A1, B3, B2, B1 in Hrun. lia.
Qed.

(** X1.  On two adjacent, non-empty ranges [merge] returns if and only if
    the ranges lie inside both arrays; otherwise the run is undefined. *)
Theorem merge_returns_iff (st : state)
        (leftstart leftend rightstart rightend : Z) :
  rightstart = leftend + 1 ->
  leftstart <= rightstart <= rightend + 1 ->
  leftstart <= rightend ->
  rightend + 1 <= int_max ->
  (exists st',
     run (merge leftstart leftend rightstart rightend) st = Some (tt, st'))
  <->
  0 <= leftstart /\
  rightend < Z.of_nat (length (A st)) /\
  rightend < Z.of_nat (length (B st)).
Proof.
  intros Hadj Hord Hne Bnd. split.
  - intros (st' & Hrun). eapply merge_in_bounds; eassumption.
  - intros (H0 & HA & HB). eexists. apply merge_on_state; lia.
Qed.

(** X2.  Whatever the order of the cells, [merge] on adjacent ranges
    leaves in [A[leftstart..rightend]] a permutation of what was there,
    and [B] holds a copy of that range. *)
Theorem merge_permutes (st : state)
        (leftstart leftend rightstart rightend : Z) :
  rightstart = leftend + 1 ->
  0 <= leftstart <= rightstart ->
  rightstart <= rightend + 1 ->
  rightend < Z.of_nat (length (A st)) ->
  rightend < Z.of_nat (length (B st)) ->
  rightend + 1 <= int_max ->
  exists st',
    run (merge leftstart leftend rightstart rightend) st = Some (tt, st') /\
    Permutation (slice leftstart rightend (A st))
                (slice leftstart rightend (A st')) /\
    slice leftstart rightend (B st') = slice leftstart rightend (A st').
Proof.
  intros Hadj Hls Hrs HA HB Bnd.
  eexists. split; [apply merge_on_state; assumption|].
  cbn [A B].
  assert (Z.of_nat
            (length (merge_lists (slice leftstart leftend (A st))
                                 (slice rightstart rightend (A st))))
          = rightend - leftstart + 1) as Hlen
    by (rewrite length_merge_lists, !length_slice by lia; lia).
  rewrite !slice_rebuilt by (rewrite ?length_firstn; lia).
  split; [|reflexivity].
  rewrite (@slice_adjacent (A st) leftstart leftend rightend) by lia.
  rewrite <- Hadj. apply merge_lists_permutation.
Qed.

(** X3.  [merge] leaves [A] as it was when the merged range is already
    in ascending order, or when one of the two ranges is empty. *)
Theorem merge_keeps_sorted (st : state)
        (leftstart leftend rightstart rightend : Z) :
  rightstart = leftend + 1 ->
  0 <= leftstart <= rightstart ->
  rightstart <= rightend + 1 ->
  rightend < Z.of_nat (length (A st)) ->
  rightend < Z.of_nat (length (B st)) ->
  rightend + 1 <= int_max ->
  ascending (slice leftstart rightend (A st)) \/
  leftend < leftstart \/ rightend < rightstart ->
  exists st',
    run (merge leftstart leftend rightstart rightend) st = Some (tt, st') /\
    A st' = A st.
Proof.
  intros Hadj Hls Hrs HA HB Bnd Hcase.
  eexists. split; [apply merge_on_state; assumption|].
  cbn [A].
  assert (merge_lists (slice leftstart leftend (A st))
                      (slice rightstart rightend (A st))
          = slice leftstart rightend (A st)) as ->.
  { rewrite (@slice_adjacent (A st) leftstart leftend rightend) by lia.
    rewrite <- Hadj.
    destruct Hcase as [Hs | [He | He]].
    - apply merge_lists_sorted_input.
      rewrite (@slice_adjacent (A st) leftstart leftend rightend) in Hs by lia.
      rewrite <- Hadj in Hs. exact Hs.
    - assert (slice leftstart leftend (A st) = []) as ->.
      { unfold slice. replace (Z.to_nat (leftend - leftstart + 1)) with O by lia.
        reflexivity. }
      apply merge_lists_nil_l.
    - assert (slice rightstart rightend (A st) = []) as ->.
      { unfold slice.
        replace (Z.to_nat (rightend - rightstart + 1)) with O by lia.
        reflexivity. }
      rewrite merge_lists_nil_r, app_nil_r. reflexivity. }
  symmetry. apply range_split; lia.
Qed.

(** ** [merge] on ranges that are not adjacent *)

Lemma skipn_slice (xs : list elt) (l r : Z) (n : nat) :
  0 <= l ->
  skipn n (slice l r xs) = slice (l + Z.of_nat n) r xs.
Proof.
  intros Hl. unfold slice.
  rewrite skipn_firstn_comm, skipn_skipn.
  f_equal; [|f_equal]; lia.
Qed.

Lemma run_merge_gap (l1 gap l2 ap az bp bm bz : list elt)
      (leftstart leftend rightstart rightend : Z) :
  leftstart = Z.of_nat (length ap) ->
  leftend = leftstart + Z.of_nat (length l1) - 1 ->
  rightstart = leftend + 1 + Z.of_nat (length gap) ->
  rightend = rightstart + Z.of_nat (length l2) - 1 ->
  length bp = length ap ->
  length bm = (length l1 + length gap + length l2)%nat ->
  rightend + 1 <= int_max ->
  run (merge leftstart leftend rightstart rightend)
      {| A := ap ++ l1 ++ gap ++ l2 ++ az; B := bp ++ bm ++ bz |}
  = Some (tt,
          {| A := ap ++ (merge_lists l1 l2
                         ++ skipn (length l1 + length l2) bm) ++ az;
             B := bp ++ (merge_lists l1 l2
                         ++ skipn (length l1 + length l2) bm) ++ bz |}).
Proof.
  intros Hls Hle Hrs Hre Hbp Hbm Bnd.
  unfold merge.
  rewrite (run_merge_loops _ l1 l2 ap gap az bp (bm ++ bz));
    rewrite ?length_app; try lia.
  rewrite skipn_app.
  replace (length l1 + length l2 - length bm)%nat with O by lia.
  cbn [skipn].
  rewrite !run_checked by (unfold int_min, int_max in *; lia).
  unfold memcpy_A_B.
  destruct (Z.ltb_spec (rightend - leftstart + 1) 0) as [H|_]; [lia|].
  set (m := merge_lists l1 l2 ++ skipn (length l1 + length l2) bm).
  assert (length m = length bm) as Hm
    by (unfold m; rewrite length_app, length_merge_lists, length_skipn; lia).
  replace (Z.to_nat (rightend - leftstart + 1)) with (length m) by lia.
  replace (bp ++ merge_lists l1 l2
              ++ skipn (length l1 + length l2) bm ++ bz)
    with (bp ++ m ++ bz) by (unfold m; rewrite <- app_assoc; reflexivity).
  rewrite (run_copy_back m ap (l1 ++ gap ++ l2 ++ az) bp bz);
    rewrite ?length_app; try lia.
  replace (l1 ++ gap ++ l2 ++ az) with ((l1 ++ gap ++ l2) ++ az)
    by (rewrite <- !app_assoc; reflexivity).
  rewrite (skipn_app_exact (l1 ++ gap ++ l2) az)
    by (rewrite !length_app; lia).
  reflexivity.
Qed.

(** X4.  When [rightstart] lies beyond [leftend + 1], the cells between
    the two ranges are lost: [merge] leaves the merged cells at the front
    of [A[leftstart..rightend]] and fills the rest of the range with what
    the scratch buffer held there before the call. *)
Theorem merge_gap_copies_scratch (st : state)
        (leftstart leftend rightstart rightend : Z) :
  0 <= leftstart <= leftend + 1 ->
  leftend + 1 <= rightstart ->
  rightstart <= rightend + 1 ->
  rightend < Z.of_nat (length (A st)) ->
  rightend < Z.of_nat (length (B st)) ->
  rightend + 1 <= int_max ->
  exists st',
    run (merge leftstart leftend rightstart rightend) st = Some (tt, st') /\
    slice leftstart rightend (A st')
    = merge_lists (slice leftstart leftend (A st))
                  (slice rightstart rightend (A st))
      ++ slice (rightend - (rightstart - leftend - 1) + 1) rightend (B st).
Proof.
  intros Hls Hgap Hrs HA HB Bnd.
  set (l1 := slice leftstart leftend (A st)).
  set (gap := slice (leftend + 1) (rightstart - 1) (A st)).
  set (l2 := slice rightstart rightend (A st)).
  set (bm := slice leftstart rightend (B st)).
  assert (length l1 = Z.to_nat (leftend - leftstart + 1)) as L1
    by (apply length_slice; lia).
  assert (length gap = Z.to_nat (rightstart - 1 - (leftend + 1) + 1)) as Lg
    by (apply length_slice; lia).
  assert (length l2 = Z.to_nat (rightend - rightstart + 1)) as L2
    by (apply length_slice; lia).
  assert (length bm = Z.to_nat (rightend - leftstart + 1)) as Lb
    by (apply length_slice; lia).
  assert (A st = firstn (Z.to_nat leftstart) (A st)
                 ++ l1 ++ gap ++ l2
                 ++ skipn (Z.to_nat (rightend + 1)) (A st)) as EA.
  { rewrite (@range_split (A st) leftstart rightend) at 1 by lia.
    rewrite (@slice_adjacent (A st) leftstart leftend rightend) by lia.
    rewrite (@slice_adjacent (A st) (leftend + 1) (rightstart - 1) rightend)
      by lia.
    replace (rightstart - 1 + 1) with rightstart by lia.
    rewrite <- !app_assoc. reflexivity. }
  assert (B st = firstn (Z.to_nat leftstart) (B st)
                 ++ bm ++ skipn (Z.to_nat (rightend + 1)) (B st)) as EB
    by (apply range_split; lia).
  eexists. split.
  - rewrite (state_eta st) at 1. rewrite EA at 1. rewrite EB at 1.
    apply run_merge_gap; rewrite ?length_firstn; lia.
  - cbn [A].
    rewrite slice_rebuilt.
    + f_equal. unfold bm. rewrite skipn_slice by lia. f_equal. lia.
    + rewrite length_firstn. lia.
    + rewrite length_app, length_merge_lists, length_skipn. lia.
Qed.

(** ** [my_mergesort] on any range *)

Lemma my_mergesort_range (st : state) (l r : Z) :
  0 <= l -> l <= r + 1 ->
  r < Z.of_nat (length (A st)) ->
  r < Z.of_nat (length (B st)) ->
  r + 1 <= int_max ->
  exists st',
    run (my_mergesort l r) st = Some (tt, st') /\
    ascending (slice l r (A st')) /\
    Permutation (slice l r (A st)) (slice l r (A st')) /\
    (forall c, with_key c (slice l r (A st')) = with_key c (slice l r (A st))) /\
    (forall a i, ~ l <= i <= r -> load a i st' = load a i st).
Proof.
  intros Hl Hr HA HB Bnd.
  pose proof (@my_mergesort_on_state st l r Hl Hr HA HB Bnd) as Hrun.
  eexists. split; [exact Hrun|].
  cbn [A].
  rewrite slice_rebuilt
    by (rewrite ?length_firstn, ?length_sort_list, ?length_slice by lia; lia).
  split; [apply sort_list_ascending|].
  split; [apply sort_list_permutation|].
  split; [intros c; apply sort_list_stable|].
  destruct (confined_frame (confined_my_mergesort l r) _ Hrun)
    as (_ & _ & Hout).
  intros a i Hi. symmetry. apply Hout. exact Hi.
Qed.

(** X5.  On a range inside both arrays [my_mergesort] returns with the
    range in ascending order, holding a permutation of its former cells
    in which cells of equal key keep their order; every cell of [A] and
    [B] outside the range is unchanged. *)
Theorem my_mergesort_sorts_range (st : state) (l r : Z) :
  0 <= l -> l <= r + 1 ->
  r < Z.of_nat (length (A st)) ->
  r < Z.of_nat (length (B st)) ->
  r + 1 <= int_max ->
  exists st',
    run (my_mergesort l r) st = Some (tt, st') /\
    ascending (slice l r (A st')) /\
    Permutation (slice l r (A st)) (slice l r (A st')) /\
    (forall c, with_key c (slice l r (A st')) = with_key c (slice l r (A st))) /\
    (forall a i, ~ l <= i <= r -> load a i st' = load a i st).
Proof. apply my_mergesort_range. Qed.

Lemma my_mergesort_in_bounds (st st' : state) (l r : Z) :
  l < r ->
  run (my_mergesort l r) st = Some (tt, st') ->
  0 <= l /\ r < Z.of_nat (length (A st)) /\ r < Z.of_nat (length (B st)).
Proof.
  intros Hlt Hrun. rewrite my_mergesort_eq in Hrun.
  destruct (l >=? r) eqn:E; [apply geb_true_ge in E; lia|].
  apply run_checked_some in Hrun. destruct Hrun as [_ Hrun].
  apply run_checked_some in Hrun. destruct Hrun as [_ Hrun].
  apply run_bind_some in Hrun. destruct Hrun as ([] & s1 & R1 & Hrun).
  apply run_checked_some in Hrun. destruct Hrun as [_ Hrun].
  apply run_bind_some in Hrun. destruct Hrun as ([] & s2 & R2 & Hrun).
  apply merge_in_bounds in Hrun; [|lia].
  destruct (run_lengths _ _ R1) as [A1 B1].
  destruct (run_lengths _ _ R2) as [A2 B2].
  rewrite A2, A1, B2, B1 in Hrun. exact Hrun.
Qed.

(** X6.  On a range of two cells or more [my_mergesort] returns if and
    only if the range lies inside both arrays. *)
Theorem my_mergesort_returns_iff (st : state) (l r : Z) :
  l < r ->
  r + 1 <= int_max ->
  (exists st', run (my_mergesort l r) st = Some (tt, st'))
  <->
  0 <= l /\ r < Z.of_nat (length (A st)) /\ r < Z.of_nat (length (B st)).
Proof.
  intros Hlt Bnd. split.
  - intros (st' & Hrun). eapply my_mergesort_in_bounds; eassumption.
  - intros (H0 & HA & HB). eexists. apply my_mergesort_on_state; lia.
Qed.

(** ** [parallel_mergesort] on any descriptor *)

(** X7.  For a descriptor of any level whose range lies inside both
    arrays, provided the process can hold the
    [2 ^ (cutoff - level + 1) - 1] threads of a full fan-out below that
    level (so that every thread and descriptor is created), every
    schedule of [parallel_mergesort] returns in the state that
    [my_mergesort] computes on that range: the range is ascending, a
    permutation of its former cells that keeps the order of equal keys,
    and nothing outside the range has changed. *)
Theorem parallel_mergesort_sorts_range (cutoff : Z) (a : argument)
        (st : state) :
  0 <= left a -> left a <= right a + 1 ->
  right a < Z.of_nat (length (A st)) ->
  right a < Z.of_nat (length (B st)) ->
  right a + 1 <= int_max ->
  int_min <= level a ->
  cutoff <= int_max ->
  (2 ^ S (Z.to_nat (cutoff - level a)) - 1 <= capacity)%nat ->
  all_runs
    (fun st' =>
       run (my_mergesort (left a) (right a)) st = Some (tt, st') /\
       ascending (slice (left a) (right a) (A st')) /\
       Permutation (slice (left a) (right a) (A st))
                   (slice (left a) (right a) (A st')) /\
       (forall c, with_key c (slice (left a) (right a) (A st'))
                  = with_key c (slice (left a) (right a) (A st))) /\
       (forall b i, ~ left a <= i <= right a -> load b i st' = load b i st))
    (Run (parallel_mergesort cutoff a)) st.
Proof.
  intros Hl Hr HA HB Bnd Hlv Hc Hcap.
  destruct (@my_mergesort_range st (left a) (right a) Hl Hr HA HB Bnd)
    as (st' & Hrun & Hs & Hp & Hk & Hf).
  eapply all_runs_of_run with (l := left a) (r := right a) (f := st').
  - apply confined_parallel_mergesort.
  - apply fork_depth_parallel_mergesort.
  - exact Hcap.
  - rewrite run_parallel_mergesort by assumption. exact Hrun.
  - repeat split; assumption.
Qed.

(** ** No access outside the descriptor's range, at any time *)

Lemma step_confined (t t' : threads) (st st' : state) :
  step t st t' st' ->
  forall l r,
    confined_threads l r t ->
    confined_threads l r t' /\ same_outside l r st st'.
Proof.
  induction 1 as [a i k st v Hld | a i v k st st' Hst | c1 c2 k st
                 | t1 t1' t2 k st st' Hstep IH
                 | t1 t2 t2' k st st' Hstep IH
                 | k st];
    intros l r Hc.
  - inversion Hc as [? ? ? Hp|]; subst.
    apply confined_inv in Hp. destruct Hp as [Hi Hk].
    split; [constructor; apply Hk | apply same_outside_refl].
  - inversion Hc as [? ? ? Hp|]; subst.
    apply confined_inv in Hp. destruct Hp as [Hi Hk].
    split; [constructor; exact Hk|].
    eapply same_outside_store; eassumption.
  - inversion Hc as [? ? ? Hp|]; subst.
    apply confined_inv in Hp. destruct Hp as (m & Hm & Hc1 & Hc2 & Hk).
    split; [|apply same_outside_refl].
    econstructor; try eassumption; constructor; assumption.
  - inversion Hc as [|? ? m ? ? ? Hm Hc1 Hc2 Hk]; subst.
    destruct (IH l m Hc1) as [Hc1' Hout].
    split; [econstructor; eassumption|].
    eapply (@same_outside_wider l m l r); [lia | lia | exact Hout].
  - inversion Hc as [|? ? m ? ? ? Hm Hc1 Hc2 Hk]; subst.
    destruct (IH (m + 1) r Hc2) as [Hc2' Hout].
    split; [econstructor; eassumption|].
    eapply (@same_outside_wider (m + 1) r l r); [lia | lia | exact Hout].
  - inversion Hc as [|? ? m ? ? ? Hm Hc1 Hc2 Hk]; subst.
    split; [constructor; exact Hk | apply same_outside_refl].
Qed.

Lemma steps_confined (t t' : threads) (st st' : state) :
  steps t st t' st' ->
  forall l r,
    confined_threads l r t ->
    confined_threads l r t' /\ same_outside l r st st'.
Proof.
  induction 1 as [t st | t st t1 st1 t2 st2 Hstep _ IH]; intros l r Hc.
  - split; [exact Hc | apply same_outside_refl].
  - destruct (step_confined Hstep Hc) as [Hc1 Ho1].
    destruct (IH l r Hc1) as [Hc2 Ho2].
    split; [exact Hc2 | eapply same_outside_trans; eassumption].
Qed.

(** X8.  Whatever the input and the schedule, also on a descriptor that
    does not fit the arrays: at every moment of a run of
    [parallel_mergesort] the next access of every thread has its index in
    [[left, right]], no two threads are about to touch the same cell, and
    no cell outside [[left, right]] has been changed. *)
Theorem parallel_mergesort_stays_in_range (cutoff : Z) (a : argument)
        (st : state) (t : threads) (st' : state) :
  steps (Run (parallel_mergesort cutoff a)) st t st' ->
  (forall b i w, access t b i w -> left a <= i <= right a) /\
  ~ racy t /\
  (forall b i, ~ left a <= i <= right a -> load b i st' = load b i st).
Proof.
  intros Hsteps.
  assert (confined_threads (left a) (right a)
            (Run (parallel_mergesort cutoff a))) as Hc
    by (constructor; apply confined_parallel_mergesort).
  destruct (steps_confined Hsteps Hc) as [Hc' (_ & _ & Hout)].
  split; [|split].
  - intros b i w Hacc. eapply access_confined; eassumption.
  - eapply confined_not_racy; eassumption.
  - intros b i Hi. symmetry. apply Hout. exact Hi.
Qed.

(** ** How many threads *)

(** X9.  At every moment of every run of [parallel_mergesort], on any
    input, at most [2 ^ (cutoff - level)] threads are running and at most
    [2 ^ (cutoff - level + 1) - 1] exist, the calling thread included;
    with [level >= cutoff] no thread is ever created. *)
Theorem parallel_mergesort_thread_bound (cutoff : Z) (a : argument)
        (st : state) (t : threads) (st' : state) :
  steps (Run (parallel_mergesort cutoff a)) st t st' ->
  (running t <= 2 ^ Z.to_nat (cutoff - level a))%nat /\
  (alive t <= 2 ^ S (Z.to_nat (cutoff - level a)) - 1)%nat /\
  (cutoff <= level a -> exists p, t = Run p).
Proof.
  intros Hsteps.
  assert (fork_depth_threads (Z.to_nat (cutoff - level a)) t) as Hd.
  { assert (fork_depth_threads (Z.to_nat (cutoff - level a))
              (Run (parallel_mergesort cutoff a))) as H0
      by (constructor; apply fork_depth_parallel_mergesort).
    revert H0. generalize (Z.to_nat (cutoff - level a)).
    induction Hsteps as [t st | t st t1 st1 t2 st2 Hstep _ IH]; intros d H0.
    - exact H0.
    - apply IH. eapply step_fork_depth; eassumption. }
  destruct (fork_depth_count Hd) as [H1 H2].
  split; [exact H1|]. split; [exact H2|].
  intros Hle. replace (Z.to_nat (cutoff - level a)) with O in Hd by lia.
  inversion Hd; subst. eexists. reflexivity.
Qed.

(** ** The driver's check [is_sorted] *)

Lemma sorted_range_step (xs : list elt) (i r : Z) (x y : elt) :
  read xs i = Some x -> read xs (i + 1) = Some y -> i + 1 <= r ->
  (sorted_range i r xs <-> key x <= key y /\ sorted_range (i + 1) r xs).
Proof.
  intros Hx Hy Hr. split.
  - intros H. split.
    + destruct (H i ltac:(lia) Hr) as (x' & y' & Hx' & Hy' & Hle).
      congruence.
    + intros j Hj Hj1. apply H; lia.
  - intros [Hle H] j Hj Hj1.
    destruct (Z.eq_dec j i) as [->|Hne].
    + exists x, y. repeat split; assumption.
    + apply H; lia.
Qed.

Lemma is_sorted_loop_spec (st : state) (size : Z) (n : nat) :
  forall i,
    n = Z.to_nat (size - 1 - i) ->
    0 <= i ->
    size <= Z.of_nat (length (A st)) ->
    size <= int_max ->
    exists b,
      run (is_sorted_loop size i) st = Some (b, st) /\
      (b = true <-> sorted_range i (size - 1) (A st)).
Proof.
  induction n as [n IH] using lt_wf_ind. intros i Hn Hi Hsz Hmax.
  rewrite is_sorted_loop_eq. destruct (Z.ltb_spec i (size - 1)) as [H|H].
  - destruct (read (A st) i) as [x|] eqn:Ex;
      [|apply read_none in Ex; lia].
    destruct (read (A st) (i + 1)) as [y|] eqn:Ey;
      [|apply read_none in Ey; lia].
    cbn [run load]. rewrite Ex.
    rewrite run_checked by (unfold int_min, int_max in *; lia).
    cbn [run load]. rewrite Ey.
    pose proof (@sorted_range_step (A st) i (size - 1) x y Ex Ey
                  ltac:(lia)) as Hstep.
    destruct (Z.gtb_spec (key x) (key y)) as [Hgt|Hle].
    + exists false. split; [reflexivity|].
      split; [discriminate|]. intros Hs. apply Hstep in Hs. lia.
    + destruct (IH (Z.to_nat (size - 1 - (i + 1))) ltac:(lia) (i + 1))
        as (b & Hrun & Hb); try lia.
      exists b. split; [exact Hrun|]. rewrite Hb, Hstep. tauto.
  - exists true. split; [reflexivity|].
    split; [|reflexivity]. intros _ j Hj Hj1. lia.
Qed.

Lemma is_sorted_spec (st : state) (size : Z) :
  int_min < size <= int_max ->
  size <= Z.of_nat (length (A st)) ->
  exists b,
    run (is_sorted size) st = Some (b, st) /\
    (b = true <-> sorted_range 0 (size - 1) (A st)).
Proof.
  intros Hsz Hlen. unfold is_sorted.
  rewrite run_checked by (unfold int_min, int_max in *; lia).
  eapply is_sorted_loop_spec; try reflexivity; lia.
Qed.

(** X10.  For a size that does not exceed the length of [A],
    [is_sorted] returns without changing the arrays, and it answers
    [true] exactly when every adjacent pair of [[0, size-1]] is in
    ascending order. *)
Theorem is_sorted_correct (st : state) (size : Z) :
  int_min < size <= int_max ->
  size <= Z.of_nat (length (A st)) ->
  exists b,
    run (is_sorted size) st = Some (b, st) /\
    (b = true <-> sorted_range 0 (size - 1) (A st)).
Proof. apply is_sorted_spec. Qed.

Lemma is_sorted_loop_past_end (st : state) (size : Z) (n : nat) :
  forall i st',
    n = Z.to_nat (Z.of_nat (length (A st)) - i) ->
    0 <= i <= Z.of_nat (length (A st)) ->
    Z.of_nat (length (A st)) < size ->
    i < size - 1 ->
    run (is_sorted_loop size i) st <> Some (true, st').
Proof.
  induction n as [n IH] using lt_wf_ind. intros i st' Hn Hi Hsz Hlt.
  rewrite is_sorted_loop_eq. destruct (Z.ltb_spec i (size - 1)) as [_|H]; [|lia].
  cbn [run].
  destruct (load ArrA i st) as [x|] eqn:Ex; [|discriminate].
  rewrite run_checked_if. destruct (in_int (i + 1)); [|discriminate].
  cbn [run].
  destruct (load ArrA (i + 1) st) as [y|] eqn:Ey; [|discriminate].
  assert (i + 1 < Z.of_nat (length (A st))) as Hin.
  { destruct (Z_lt_dec (i + 1) (Z.of_nat (length (A st)))) as [|N]; [assumption|].
    assert (load ArrA (i + 1) st = None) as E
      by (apply (proj2 (load_none ArrA (i + 1) st)); simpl; lia).
    congruence. }
  destruct (key x >? key y); [cbn [run]; congruence|].
  apply (IH (Z.to_nat (Z.of_nat (length (A st)) - (i + 1)))); lia.
Qed.

(** X11.  When [size] exceeds the length of [A], [is_sorted] never
    answers [true]: it answers [false] at a descending pair or reads past
    the end of the array. *)
Theorem is_sorted_past_end (st st' : state) (size : Z) :
  Z.of_nat (length (A st)) < size ->
  2 <= size ->
  run (is_sorted size) st <> Some (true, st').
Proof.
  intros Hsz H2. unfold is_sorted.
  rewrite run_checked_if. destruct (in_int (size - 1)); [|discriminate].
  eapply is_sorted_loop_past_end; try reflexivity; lia.
Qed.

(** ** The sort and the driver's check together *)

(** X12.  Whatever the data, the scratch contents, the cutoff and the
    schedule, provided the process can hold the [2 ^ (cutoff + 1) - 1]
    threads of a full fan-out (so that every thread and descriptor is
    created), after [parallel_mergesort] on the root descriptor the
    driver's [is_sorted(N)] answers [true]: the sorting tests of the
    driver pass. *)
Theorem sort_then_is_sorted (cutoff : Z) (st : state) (N : Z) :
  N = Z.of_nat (length (A st)) ->
  N <= int_max ->
  length (B st) = length (A st) ->
  cutoff <= int_max ->
  (2 ^ S (Z.to_nat cutoff) - 1 <= capacity)%nat ->
  all_runs (fun st' => run (is_sorted N) st' = Some (true, st'))
           (Run (parallel_mergesort cutoff (buildArgs 0 (N - 1) 0))) st.
Proof.
  intros HN Bnd HB Hc Hcap.
  apply all_runs_sort_root; try assumption.
  set (f := {| A := sort_list (A st); B := scratch_after (A st) (B st) |}).
  assert (Z.of_nat (length (A f)) = N) as Hlen
    by (unfold f; cbn [A]; rewrite length_sort_list; lia).
  destruct (@is_sorted_spec f N) as (b & Hrun & Hb);
    [unfold int_min in *; lia | lia |].
  assert (b = true) as ->.
  { apply Hb. rewrite <- Hlen. apply ascending_sorted_range.
    unfold f. cbn [A]. apply sort_list_ascending. }
  exact Hrun.
Qed.

(** X13.  Sorting again changes nothing: after one sort, a second sort
    with any cutoff returns, under every schedule, with [A] as the first
    one left it, provided the process can hold the [2 ^ (c + 1) - 1]
    threads of a full fan-out for the cutoff [c] of either sort (so that
    every thread and descriptor is created). *)
Theorem sort_twice (c1 c2 : Z) (st : state) (N : Z) :
  N = Z.of_nat (length (A st)) ->
  N <= int_max ->
  length (B st) = length (A st) ->
  c1 <= int_max ->
  c2 <= int_max ->
  (2 ^ S (Z.to_nat c1) - 1 <= capacity)%nat ->
  (2 ^ S (Z.to_nat c2) - 1 <= capacity)%nat ->
  all_runs
    (fun st1 =>
       all_runs (fun st2 => A st2 = A st1)
                (Run (parallel_mergesort c2 (buildArgs 0 (N - 1) 0))) st1)
    (Run (parallel_mergesort c1 (buildArgs 0 (N - 1) 0))) st.
Proof.
  intros HN Bnd HB H1 H2 Hcap1 Hcap2.
  apply all_runs_sort_root; try assumption.
  apply all_runs_sort_root; cbn [A B]; try assumption.
  - rewrite length_sort_list. exact HN.
  - rewrite length_sort_list. apply length_scratch_after. exact HB.
  - apply sort_list_sorted_input. apply sort_list_ascending.
Qed.

(** X14.  Provided the process can hold the [2 ^ (cutoff + 1) - 1]
    threads of a full fan-out (so that every thread and descriptor is
    created), the sort returns under every schedule, and then the
    scratch buffer holds a copy of the sorted dataset if there are two
    cells or more; a dataset of at most one cell leaves both arrays
    untouched. *)
Theorem scratch_after_sort (cutoff : Z) (st : state) (N : Z) :
  N = Z.of_nat (length (A st)) ->
  N <= int_max ->
  length (B st) = length (A st) ->
  cutoff <= int_max ->
  (2 ^ S (Z.to_nat cutoff) - 1 <= capacity)%nat ->
  all_runs (fun st' => (2 <= N -> B st' = A st') /\ (N <= 1 -> st' = st))
           (Run (parallel_mergesort cutoff (buildArgs 0 (N - 1) 0))) st.
Proof.
  intros HN Bnd HB Hc Hcap.
  apply all_runs_sort_root; try assumption.
  cbn [A B]. unfold scratch_after. rewrite sort_list_eq.
  destruct (Nat.leb_spec (length (A st)) 1) as [H|H].
  - split; [lia|]. intros _. symmetry. apply state_eta.
  - split; [reflexivity | lia].
Qed.

(** ** A schedule that returns safely is matched by the sequential run *)

Lemma write_restore (l : list elt) (i : Z) (v old : elt) (l' : list elt) :
  write l i v = Some l' -> read l i = Some old -> write l' i old = Some l.
Proof.
  intros Hw Hr. apply write_some in Hw.
  destruct Hw as (p & y & s & -> & -> & ->).
  rewrite (read_here p s y eq_refl) in Hr. inversion Hr. subst.
  apply write_here. reflexivity.
Qed.

Lemma write_overwrite (l : list elt) (i : Z) (v w : elt) (l1 : list elt) :
  write l i w = Some l1 -> write l1 i v = write l i v.
Proof.
  intros Hw. apply write_some in Hw.
  destruct Hw as (p & y & s & -> & -> & ->).
  rewrite !(write_here p s) by reflexivity. reflexivity.
Qed.

Lemma write_same (l : list elt) (i : Z) (v : elt) :
  read l i = Some v -> write l i v = Some l.
Proof.
  intros Hr.
  destruct (write l i v) as [l'|] eqn:E.
  - apply write_some in E. destruct E as (p & y & s & -> & -> & ->).
    rewrite (read_here p s y eq_refl) in Hr. congruence.
  - apply write_none in E. assert (read l i <> None) as N by congruence.
    rewrite read_none in N. tauto.
Qed.

Lemma store_restore (a : arr) (i : Z) (v old : elt) (st st' : state) :
  store a i v st = Some st' -> load a i st = Some old ->
  store a i old st' = Some st.
Proof.
  intros Hs Hl.
  destruct a; simpl in *; destruct (write _ i v) as [l'|] eqn:E;
    inversion Hs; subst; simpl;
    rewrite (@write_restore _ _ _ _ _ E Hl); simpl; destruct st; reflexivity.
Qed.

Lemma store_overwrite (a : arr) (i : Z) (v w : elt) (s s1 : state) :
  store a i w s = Some s1 -> store a i v s1 = store a i v s.
Proof.
  intros Hs.
  destruct a; simpl in *; destruct (write _ i w) as [l'|] eqn:E;
    inversion Hs; subst; simpl;
    rewrite (@write_overwrite _ _ v _ _ E); reflexivity.
Qed.

Lemma store_same (a : arr) (i : Z) (v : elt) (s : state) :
  load a i s = Some v -> store a i v s = Some s.
Proof.
  intros Hl. destruct a; simpl in *; rewrite (@write_same _ _ _ Hl); simpl;
    destruct s; reflexivity.
Qed.

Lemma load_store_same (a : arr) (i : Z) (v : elt) (st st' : state) :
  store a i v st = Some st' -> load a i st' = Some v.
Proof.
  intros Hs.
  destruct a; simpl in *; destruct (write _ i v) as [l'|] eqn:E;
    inversion Hs; subst; simpl;
    apply write_some in E; destruct E as (p & y & s & _ & -> & ->);
    apply read_here; reflexivity.
Qed.

Lemma store_some_load (a : arr) (i : Z) (v : elt) (st st' : state) :
  store a i v st = Some st' -> exists old, load a i st = Some old.
Proof.
  intros Hs. destruct (load a i st) as [old|] eqn:E; [eauto|].
  apply load_none in E. assert (store a i v st <> None) as N by congruence.
  rewrite store_none in N. tauto.
Qed.

Lemma agree_store_any (l r : Z) (a : arr) (i : Z) (v w : elt)
      (st st' s : state) :
  agree l r st s -> store a i v st = Some st' ->
  exists s', store a i w s = Some s'.
Proof.
  intros (HA & HB & _) H.
  destruct (store a i w s) as [s'|] eqn:E; [exists s'; reflexivity|].
  apply store_none in E.
  assert (store a i v st <> None) as N by congruence.
  rewrite store_none in N.
  assert (array_length a st = array_length a s) as L
    by (destruct a; assumption).
  rewrite L in N. tauto.
Qed.

(** The converse of [step_preserves]: the step is undone in a state
    [s'] that agrees with [st'] on the range of the thread tree. *)
Lemma step_reflects (t t' : threads) (st st' : state) :
  step t st t' st' ->
  forall l r s' f,
    confined_threads l r t ->
    agree l r st' s' ->
    run_threads t' s' = Some f ->
    exists s,
      run_threads t s = Some f /\
      ((st' = st /\ s = s') \/
       (exists a i v old,
           l <= i <= r /\ store a i v st = Some st' /\
           load a i st = Some old /\ store a i old s' = Some s)).
Proof.
  induction 1 as [a i k st v Hld | a i v k st st' Hst | c1 c2 k st
                 | t1 t1' t2 k st st' Hstep IH
                 | t1 t2 t2' k st st' Hstep IH
                 | k st];
    intros l r s' f Hc Hag Hrun.
  - inversion Hc as [? ? ? Hp|]; subst.
    apply confined_inv in Hp. destruct Hp as [Hi Hk].
    exists s'. split; [|left; split; reflexivity].
    apply run_threads_run in Hrun. apply run_threads_run.
    simpl. destruct Hag as (_ & _ & Hag).
    rewrite <- Hag, Hld by assumption. exact Hrun.
  - inversion Hc as [? ? ? Hp|]; subst.
    apply confined_inv in Hp. destruct Hp as [Hi Hk].
    destruct (@store_some_load _ _ _ _ _ Hst) as (old & Hold).
    pose proof (@load_store_same _ _ _ _ _ Hst) as Hv.
    destruct Hag as (HA & HB & Hag'). rewrite Hag' in Hv by assumption.
    pose proof (@store_same _ _ _ _ Hv) as Hsame.
    destruct (@agree_store_any l r a i v old s' s' s'
                (agree_refl l r s') Hsame)
      as (s & Hs).
    exists s. split.
    + apply run_threads_run in Hrun. apply run_threads_run.
      simpl. rewrite (@store_overwrite _ _ v _ _ _ Hs), Hsame. exact Hrun.
    + right. exists a, i, v, old. repeat split; assumption || lia.
  - inversion Hc as [? ? ? Hp|]; subst.
    apply confined_inv in Hp. destruct Hp as (m & Hm & Hc1 & Hc2 & Hk).
    exists s'. split; [|left; split; reflexivity].
    apply run_threads_join in Hrun.
    destruct Hrun as (f1 & f2 & R1 & R2 & Rk).
    apply run_threads_run in R1, R2. apply run_threads_run.
    simpl. rewrite R1, R2. exact Rk.
  - inversion Hc as [|? ? m ? ? ? Hm Hc1 Hc2 Hk]; subst.
    apply run_threads_join in Hrun.
    destruct Hrun as (f1 & f2 & R1 & R2 & Rk).
    destruct (IH l m s' f1 Hc1) as (s & R1' & Heff);
      [eapply agree_narrow; [| |eassumption]; lia | assumption |].
    exists s. split.
    + apply run_threads_join. exists f1, f2. repeat split; assumption.
    + destruct Heff as [?|(a & i & v & old & Hi & S1 & S2 & S3)];
        [left; assumption|].
      right. exists a, i, v, old. repeat split; assumption || lia.
  - inversion Hc as [|? ? m ? ? ? Hm Hc1 Hc2 Hk]; subst.
    apply run_threads_join in Hrun.
    destruct Hrun as (f1 & f2 & R1 & R2 & Rk).
    pose proof (confined_threads_frame Hc1 _ R1) as Hfr.
    destruct (IH (m + 1) r f1 f2 Hc2) as (g & R2' & Heff).
    { eapply agree_same_outside; [|eapply agree_narrow; [| |exact Hag]|exact Hfr];
        lia. }
    { assumption. }
    destruct Heff as [[-> ->]|(a & i & v & old & Hi & S1 & S2 & S3)].
    + exists s'. split; [|left; split; reflexivity].
      apply run_threads_join. exists f1, f2. repeat split; assumption.
    + assert (exists s, store a i old s' = Some s) as (s & Hs).
      { destruct (store a i old s') as [x|] eqn:E; [eauto|].
        apply store_none in E. destruct Hfr as (LA & LB & _).
        assert (store a i old f1 <> None) as N by congruence.
        rewrite store_none in N.
        assert (array_length a s' = array_length a f1) as L
          by (destruct a; assumption).
        rewrite L in E. tauto. }
      destruct (@confined_threads_commute _ _ _ Hc1 a i old s' s f1)
        as (g' & G1 & G2); [lia|assumption|assumption|].
      assert (g' = g) by congruence. subst g'.
      exists s. split.
      * apply run_threads_join. exists g, f2. repeat split; assumption.
      * right. exists a, i, v, old. repeat split; assumption || lia.
  - inversion Hc as [|? ? m ? ? ? Hm Hc1 Hc2 Hk]; subst.
    exists s'. split; [|left; split; reflexivity].
    apply run_threads_run in Hrun.
    apply run_threads_join. exists s', s'.
    unfold finished. rewrite !run_threads_run. repeat split. exact Hrun.
Qed.

Lemma all_runs_run_threads (Q : state -> Prop) (t : threads) (st : state) :
  all_runs Q t st ->
  forall l r, confined_threads l r t ->
              exists f, run_threads t st = Some f /\ Q f.
Proof.
  induction 1 as [st HQ | t st Hnf Hf _ _ IH]; intros l r Hc.
  - exists st. split; [reflexivity | exact HQ].
  - destruct (step_progress Hnf Hf) as (t' & st' & Hstep).
    destruct (step_confined Hstep Hc) as [Hc' _].
    destruct (IH _ _ Hstep l r Hc') as (f & Hrun & HQ).
    destruct (step_reflects Hstep Hc (agree_refl l r st') Hrun)
      as (s & Hrun' & Heff).
    exists f. split; [|exact HQ].
    assert (s = st) as <-; [|exact Hrun'].
    destruct Heff as [[-> ->]|(a & i & v & old & _ & S1 & S2 & S3)];
      [reflexivity|].
    rewrite (@store_restore _ _ _ _ _ _ S1 S2) in S3. congruence.
Qed.

(** X15.  For a descriptor of two cells or more, and provided the
    process can hold the [2 ^ (cutoff - level + 1) - 1] threads of a
    full fan-out below its level (so that every thread and descriptor
    is created), every schedule of [parallel_mergesort] returns without
    an undefined operation or a data race if and only if the range lies
    inside both arrays. *)
Theorem parallel_mergesort_safe_iff (cutoff : Z) (a : argument)
        (st : state) :
  left a < right a ->
  right a + 1 <= int_max ->
  int_min <= level a ->
  cutoff <= int_max ->
  (2 ^ S (Z.to_nat (cutoff - level a)) - 1 <= capacity)%nat ->
  all_runs (fun _ => True) (Run (parallel_mergesort cutoff a)) st
  <->
  0 <= left a /\
  right a < Z.of_nat (length (A st)) /\
  right a < Z.of_nat (length (B st)).
Proof.
  intros Hlt Bnd Hlv Hc Hcap.
  assert (confined_threads (left a) (right a)
            (Run (parallel_mergesort cutoff a))) as Hconf
    by (constructor; apply confined_parallel_mergesort).
  split.
  - intros Hall.
    destruct (all_runs_run_threads Hall Hconf) as (f & Hrun & _).
    apply run_threads_run in Hrun.
    rewrite run_parallel_mergesort in Hrun by assumption.
    eapply my_mergesort_in_bounds; eassumption.
  - intros (H0 & HA & HB).
    eapply all_runs_of_run with (l := left a) (r := right a).
    + apply confined_parallel_mergesort.
    + apply fork_depth_parallel_mergesort.
    + exact Hcap.
    + rewrite run_parallel_mergesort by assumption.
      apply my_mergesort_on_state; lia.
    + exact I.
Qed.

End Program.

Arguments Ret {elt R} r.
Arguments Fault {elt R}.
Arguments Load {elt R} a i k.
Arguments Store {elt R} a i v k.
Arguments Par {elt R} c1 c2 k.

(** * The theorems at concrete inputs

    The C program is the instance [elt := Z], [key := id]; the inputs are
    those of the test driver.  For the stability of [merge] the cells
    carry a tag next to their key. *)

Section Examples.

Local Abbreviation key_int := (fun z : Z => z).

Local Abbreviation five := {| A := [5; 3; 1; 4; 2]; B := [0; 0; 0; 0; 0] |}.
Local Abbreviation five' := {| A := [5; 3; 1; 4; 2]; B := [9; 8; 7; 6; 5] |}.
Local Abbreviation ordered := {| A := [1; 2; 3; 4; 5]; B := [0; 0; 0; 0; 0] |}.
Local Abbreviation tagged :=
  {| A := [(1, 0%nat); (2, 1%nat); (2, 2%nat); (1, 3%nat); (2, 4%nat)];
     B := [(0, 0%nat); (0, 0%nat); (0, 0%nat); (0, 0%nat); (0, 0%nat)] |}.

Lemma parallel_mergesort_sorted_witness :
  5 = Z.of_nat (length (A five)) /\
  1 <= 5 <= int_max /\
  length (B five) = length (A five) /\
  0 <= 2 <= int_max /\
  (2 ^ S (Z.to_nat 2) - 1 <= 7)%nat /\
  all_runs 7 (fun st' => sorted_range key_int 0 (5 - 1) (A st'))
           (Run (parallel_mergesort key_int 2 (buildArgs 0 (5 - 1) 0))) five.
Proof.
  assert (0 <= 2 <= int_max) as Hc by (unfold int_max; lia).
  assert (1 <= 5 <= int_max) as HN by (unfold int_max; lia).
  assert (2 ^ S (Z.to_nat 2) - 1 <= 7)%nat as Hcap by (simpl; lia).
  split; [reflexivity|]. split; [exact HN|]. split; [reflexivity|].
  split; [exact Hc|]. split; [exact Hcap|].
  exact (@parallel_mergesort_sorted Z key_int 7 2 five 5
           eq_refl HN eq_refl Hc Hcap).
Defined.

Lemma parallel_mergesort_permutation_witness :
  5 = Z.of_nat (length (A five)) /\
  5 <= int_max /\
  length (B five) = length (A five) /\
  0 <= 2 <= int_max /\
  (2 ^ S (Z.to_nat 2) - 1 <= 7)%nat /\
  all_runs 7 (fun st' => Permutation (A five) (A st'))
           (Run (parallel_mergesort key_int 2 (buildArgs 0 (5 - 1) 0))) five.
Proof.
  assert (0 <= 2 <= int_max) as Hc by (unfold int_max; lia).
  assert (5 <= int_max) as HN by (unfold int_max; lia).
  assert (2 ^ S (Z.to_nat 2) - 1 <= 7)%nat as Hcap by (simpl; lia).
  split; [reflexivity|]. split; [exact HN|]. split; [reflexivity|].
  split; [exact Hc|]. split; [exact Hcap|].
  exact (@parallel_mergesort_permutation Z key_int 7 2 five 5
           eq_refl HN eq_refl Hc Hcap).
Defined.

Lemma merge_sorted_stable_witness :
  3 = 2 + 1 /\
  0 <= 0 <= 3 /\
  3 <= 4 + 1 /\
  4 < Z.of_nat (length (A tagged)) /\
  4 < Z.of_nat (length (B tagged)) /\
  4 + 1 <= int_max /\
  ascending fst (slice 0 2 (A tagged)) /\
  ascending fst (slice 3 4 (A tagged)) /\
  exists st',
    run (merge fst 0 2 3 4) tagged = Some (tt, st') /\
    ascending fst (slice 0 4 (A st')) /\
    forall c,
      with_key fst c (slice 0 4 (A st'))
      = with_key fst c (slice 0 2 (A tagged))
        ++ with_key fst c (slice 3 4 (A tagged)).
Proof.
  assert (4 + 1 <= int_max) as Bnd by (unfold int_max; lia).
  assert (0 <= 0 <= 3) as H0 by lia.
  assert (3 <= 4 + 1) as H1 by lia.
  assert (4 < Z.of_nat (length (A tagged))) as HA by (simpl; lia).
  assert (4 < Z.of_nat (length (B tagged))) as HB by (simpl; lia).
  assert (ascending fst (slice 0 2 (A tagged))) as S1
    by (repeat constructor; unfold key_le; simpl; lia).
  assert (ascending fst (slice 3 4 (A tagged))) as S2
    by (repeat constructor; unfold key_le; simpl; lia).
  repeat (split; [assumption || reflexivity|]).
  exact (@merge_sorted_stable (Z * nat) fst tagged 0 2 3 4
           eq_refl H0 H1 HA HB Bnd S1 S2).
Defined.

Lemma parallel_mergesort_cutoff_invariant_witness :
  5 = Z.of_nat (length (A five)) /\
  5 <= int_max /\
  length (B five) = length (A five) /\
  0 <= int_max /\
  3 <= int_max /\
  (2 ^ S (Z.to_nat 0) - 1 <= 15)%nat /\
  (2 ^ S (Z.to_nat 3) - 1 <= 15)%nat /\
  exists f,
    run (my_mergesort key_int 0 (5 - 1)) five = Some (tt, f) /\
    run (parallel_mergesort key_int 0 (buildArgs 0 (5 - 1) 0)) five
    = Some (tt, f) /\
    all_runs 15 (fun st' => st' = f)
             (Run (parallel_mergesort key_int 0 (buildArgs 0 (5 - 1) 0))) five /\
    all_runs 15 (fun st' => st' = f)
             (Run (parallel_mergesort key_int 3 (buildArgs 0 (5 - 1) 0))) five.
Proof.
  assert (5 <= int_max) as HN by (unfold int_max; lia).
  assert (0 <= int_max) as H0 by (unfold int_max; lia).
  assert (3 <= int_max) as H3 by (unfold int_max; lia).
  assert (2 ^ S (Z.to_nat 0) - 1 <= 15)%nat as Hcap0 by (simpl; lia).
  assert (2 ^ S (Z.to_nat 3) - 1 <= 15)%nat as Hcap3 by (simpl; lia).
  repeat (split; [assumption || reflexivity|]).
  exact (@parallel_mergesort_cutoff_invariant Z key_int 15 0 3 five 5
           eq_refl HN eq_refl H0 H3 Hcap0 Hcap3).
Defined.

Lemma my_mergesort_split_terminates_witness :
  2 < 7 /\
  (midpoint 2 7 = 2 + (7 - 2) / 2 /\
   2 <= midpoint 2 7 /\ midpoint 2 7 + 1 <= 7 /\
   midpoint 2 7 - 2 + 1 < 7 - 2 + 1 /\
   7 - (midpoint 2 7 + 1) + 1 < 7 - 2 + 1).
Proof.
  assert (2 < 7) as H by lia.
  split; [exact H|].
  exact (proj1 (@my_mergesort_split_terminates Z key_int 2 7) H).
Defined.

Lemma merge_frame_witness :
  3 = 2 + 1 /\
  0 <= 1 <= 3 /\
  3 <= 3 + 1 /\
  3 < Z.of_nat (length (A five)) /\
  3 < Z.of_nat (length (B five)) /\
  3 + 1 <= int_max /\
  exists st',
    run (merge key_int 1 2 3 3) five = Some (tt, st') /\
    length (A st') = length (A five) /\
    length (B st') = length (B five) /\
    forall a i, ~ 1 <= i <= 3 -> load a i st' = load a i five.
Proof.
  assert (3 + 1 <= int_max) as Bnd by (unfold int_max; lia).
  assert (0 <= 1 <= 3) as H0 by lia.
  assert (3 <= 3 + 1) as H1 by lia.
  assert (3 < Z.of_nat (length (A five))) as HA by (simpl; lia).
  assert (3 < Z.of_nat (length (B five))) as HB by (simpl; lia).
  repeat (split; [assumption || reflexivity|]).
  exact (@merge_frame Z key_int five 1 2 3 3 eq_refl H0 H1 HA HB Bnd).
Defined.

Lemma parallel_mergesort_trivial_witness :
  right (buildArgs 0 0 0) <= left (buildArgs 0 0 0) /\
  parallel_mergesort key_int 0 (buildArgs 0 0 0) = Ret tt /\
  all_runs 1 (fun st' => st' = {| A := [42]; B := [0] |})
           (Run (parallel_mergesort key_int 0 (buildArgs 0 0 0)))
           {| A := [42]; B := [0] |} /\
  run (is_sorted key_int 1) {| A := [42]; B := [0] |}
  = Some (true, {| A := [42]; B := [0] |}).
Proof.
  assert (right (buildArgs 0 0 0) <= left (buildArgs 0 0 0)) as H
    by (simpl; lia).
  split; [exact H|].
  exact (@parallel_mergesort_trivial Z key_int 1 0 (buildArgs 0 0 0)
           {| A := [42]; B := [0] |} H).
Defined.

Lemma fan_out_children_witness :
  left (buildArgs 0 99 0) < right (buildArgs 0 99 0) /\
  level (buildArgs 0 99 0) < 2 /\
  0 <= left (buildArgs 0 99 0) /\
  right (buildArgs 0 99 0) <= int_max /\
  int_min <= level (buildArgs 0 99 0) /\
  2 <= int_max /\
  leftArg (buildArgs 0 99 0) = {| left := 0; right := 49; level := 1 |} /\
  rightArg (buildArgs 0 99 0) = {| left := 50; right := 99; level := 1 |} /\
  parallel_mergesort key_int 2 (buildArgs 0 99 0)
  = Par (parallel_mergesort key_int 2 (leftArg (buildArgs 0 99 0)))
        (parallel_mergesort key_int 2 (rightArg (buildArgs 0 99 0)))
        (merge key_int 0 49 50 99).
Proof.
  assert (left (buildArgs 0 99 0) < right (buildArgs 0 99 0)) as H1
    by (simpl; lia).
  assert (level (buildArgs 0 99 0) < 2) as H2 by (simpl; lia).
  assert (0 <= left (buildArgs 0 99 0)) as H3 by (simpl; lia).
  assert (right (buildArgs 0 99 0) <= int_max) as H4
    by (unfold int_max; simpl; lia).
  assert (int_min <= level (buildArgs 0 99 0)) as H5
    by (unfold int_min; simpl; lia).
  assert (2 <= int_max) as H6 by (unfold int_max; lia).
  repeat (split; [assumption || reflexivity|]).
  exact (proj1 (@fan_out_children Z key_int 2 (buildArgs 0 99 0)
                  H1 H2 H3 H4 H5 H6)).
Defined.

Lemma parallel_mergesort_idempotent_witness :
  5 = Z.of_nat (length (A ordered)) /\
  5 <= int_max /\
  length (B ordered) = length (A ordered) /\
  0 <= 2 <= int_max /\
  (2 ^ S (Z.to_nat 2) - 1 <= 7)%nat /\
  ascending key_int (A ordered) /\
  all_runs 7 (fun st' => A st' = A ordered)
           (Run (parallel_mergesort key_int 2 (buildArgs 0 (5 - 1) 0)))
           ordered.
Proof.
  assert (0 <= 2 <= int_max) as Hc by (unfold int_max; lia).
  assert (5 <= int_max) as HN by (unfold int_max; lia).
  assert (ascending key_int (A ordered)) as Hs
    by (repeat constructor; unfold key_le; lia).
  assert (2 ^ S (Z.to_nat 2) - 1 <= 7)%nat as Hcap by (simpl; lia).
  repeat (split; [assumption || reflexivity|]).
  exact (@parallel_mergesort_idempotent Z key_int 7 2 ordered 5
           eq_refl HN eq_refl Hc Hcap Hs).
Defined.

Lemma scratch_independent_witness :
  A five = A five' /\
  5 = Z.of_nat (length (A five)) /\
  5 <= int_max /\
  length (B five) = length (A five) /\
  length (B five') = length (A five') /\
  0 <= 2 <= int_max /\
  (2 ^ S (Z.to_nat 2) - 1 <= 7)%nat /\
  2 = 1 + 1 /\
  0 <= 0 <= 2 /\
  2 <= 4 + 1 /\
  4 < 5 /\
  exists out mout,
    all_runs 7 (fun st' => A st' = out)
             (Run (parallel_mergesort key_int 2 (buildArgs 0 (5 - 1) 0)))
             five /\
    all_runs 7 (fun st' => A st' = out)
             (Run (parallel_mergesort key_int 2 (buildArgs 0 (5 - 1) 0)))
             five' /\
    option_map (fun x => A (snd x)) (run (merge key_int 0 1 2 4) five)
    = Some mout /\
    option_map (fun x => A (snd x)) (run (merge key_int 0 1 2 4) five')
    = Some mout.
Proof.
  assert (0 <= 2 <= int_max) as Hc by (unfold int_max; lia).
  assert (5 <= int_max) as HN by (unfold int_max; lia).
  assert (0 <= 0 <= 2) as H0 by lia.
  assert (2 <= 4 + 1) as H1 by lia.
  assert (4 < 5) as H2 by lia.
  assert (2 ^ S (Z.to_nat 2) - 1 <= 7)%nat as Hcap by (simpl; lia).
  repeat (split; [assumption || reflexivity|]).
  exact (@scratch_independent Z key_int 7 2 five five' 5 0 1 2 4
           eq_refl eq_refl HN eq_refl eq_refl Hc Hcap eq_refl H0 H1 H2).
Defined.

(** Witnesses of the further properties. *)

Lemma merge_returns_iff_witness :
  2 = 1 + 1 /\
  0 <= 2 <= 4 + 1 /\
  0 <= 4 /\
  4 + 1 <= int_max /\
  ((exists st', run (merge key_int 0 1 2 4) five = Some (tt, st'))
   <->
   0 <= 0 /\
   4 < Z.of_nat (length (A five)) /\ 4 < Z.of_nat (length (B five))).
Proof.
  assert (0 <= 2 <= 4 + 1) as H0 by lia.
  assert (0 <= 4) as H1 by lia.
  assert (4 + 1 <= int_max) as H2 by (unfold int_max; lia).
  repeat (split; [assumption || reflexivity|]).
  exact (@merge_returns_iff Z key_int five 0 1 2 4 eq_refl H0 H1 H2).
Defined.

Lemma merge_permutes_witness :
  2 = 1 + 1 /\
  0 <= 0 <= 2 /\
  2 <= 4 + 1 /\
  4 < Z.of_nat (length (A five)) /\
  4 < Z.of_nat (length (B five)) /\
  4 + 1 <= int_max /\
  exists st',
    run (merge key_int 0 1 2 4) five = Some (tt, st') /\
    Permutation (slice 0 4 (A five)) (slice 0 4 (A st')) /\
    slice 0 4 (B st') = slice 0 4 (A st').
Proof.
  assert (0 <= 0 <= 2) as H0 by lia.
  assert (2 <= 4 + 1) as H1 by lia.
  assert (4 < Z.of_nat (length (A five))) as HA by (simpl; lia).
  assert (4 < Z.of_nat (length (B five))) as HB by (simpl; lia).
  assert (4 + 1 <= int_max) as H2 by (unfold int_max; lia).
  repeat (split; [assumption || reflexivity|]).
  exact (@merge_permutes Z key_int five 0 1 2 4 eq_refl H0 H1 HA HB H2).
Defined.

Lemma merge_keeps_sorted_witness :
  2 = 1 + 1 /\
  0 <= 0 <= 2 /\
  2 <= 4 + 1 /\
  4 < Z.of_nat (length (A ordered)) /\
  4 < Z.of_nat (length (B ordered)) /\
  4 + 1 <= int_max /\
  (ascending key_int (slice 0 4 (A ordered)) \/ 1 < 0 \/ 4 < 2) /\
  exists st',
    run (merge key_int 0 1 2 4) ordered = Some (tt, st') /\
    A st' = A ordered.
Proof.
  assert (0 <= 0 <= 2) as H0 by lia.
  assert (2 <= 4 + 1) as H1 by lia.
  assert (4 < Z.of_nat (length (A ordered))) as HA by (simpl; lia).
  assert (4 < Z.of_nat (length (B ordered))) as HB by (simpl; lia).
  assert (4 + 1 <= int_max) as H2 by (unfold int_max; lia).
  assert (ascending key_int (slice 0 4 (A ordered)) \/ 1 < 0 \/ 4 < 2) as Hs
    by (left; repeat constructor; unfold key_le; lia).
  repeat (split; [assumption || reflexivity|]).
  exact (@merge_keeps_sorted Z key_int ordered 0 1 2 4
           eq_refl H0 H1 HA HB H2 Hs).
Defined.

Lemma merge_gap_copies_scratch_witness :
  0 <= 0 <= 0 + 1 /\
  0 + 1 <= 2 /\
  2 <= 2 + 1 /\
  2 < Z.of_nat (length (A five')) /\
  2 < Z.of_nat (length (B five')) /\
  2 + 1 <= int_max /\
  exists st',
    run (merge key_int 0 0 2 2) five' = Some (tt, st') /\
    slice 0 2 (A st')
    = merge_lists key_int (slice 0 0 (A five')) (slice 2 2 (A five'))
      ++ slice (2 - (2 - 0 - 1) + 1) 2 (B five').
Proof.
  assert (0 <= 0 <= 0 + 1) as H0 by lia.
  assert (0 + 1 <= 2) as H1 by lia.
  assert (2 <= 2 + 1) as H2 by lia.
  assert (2 < Z.of_nat (length (A five'))) as HA by (simpl; lia).
  assert (2 < Z.of_nat (length (B five'))) as HB by (simpl; lia).
  assert (2 + 1 <= int_max) as H3 by (unfold int_max; lia).
  repeat (split; [assumption || reflexivity|]).
  exact (@merge_gap_copies_scratch Z key_int five' 0 0 2 2
           H0 H1 H2 HA HB H3).
Defined.

Lemma my_mergesort_sorts_range_witness :
  0 <= 1 /\
  1 <= 3 + 1 /\
  3 < Z.of_nat (length (A five)) /\
  3 < Z.of_nat (length (B five)) /\
  3 + 1 <= int_max /\
  exists st',
    run (my_mergesort key_int 1 3) five = Some (tt, st') /\
    ascending key_int (slice 1 3 (A st')) /\
    Permutation (slice 1 3 (A five)) (slice 1 3 (A st')) /\
    (forall c, with_key key_int c (slice 1 3 (A st'))
               = with_key key_int c (slice 1 3 (A five))) /\
    (forall a i, ~ 1 <= i <= 3 -> load a i st' = load a i five).
Proof.
  assert (0 <= 1) as H0 by lia.
  assert (1 <= 3 + 1) as H1 by lia.
  assert (3 < Z.of_nat (length (A five))) as HA by (simpl; lia).
  assert (3 < Z.of_nat (length (B five))) as HB by (simpl; lia).
  assert (3 + 1 <= int_max) as H2 by (unfold int_max; lia).
  repeat (split; [assumption|]).
  exact (@my_mergesort_sorts_range Z key_int five 1 3 H0 H1 HA HB H2).
Defined.

Lemma my_mergesort_returns_iff_witness :
  0 < 5 /\
  5 + 1 <= int_max /\
  ((exists st', run (my_mergesort key_int 0 5) five = Some (tt, st'))
   <->
   0 <= 0 /\
   5 < Z.of_nat (length (A five)) /\ 5 < Z.of_nat (length (B five))).
Proof.
  assert (0 < 5) as H0 by lia.
  assert (5 + 1 <= int_max) as H1 by (unfold int_max; lia).
  repeat (split; [assumption|]).
  exact (@my_mergesort_returns_iff Z key_int five 0 5 H0 H1).
Defined.

Lemma parallel_mergesort_sorts_range_witness :
  0 <= left (buildArgs 1 3 1) /\
  left (buildArgs 1 3 1) <= right (buildArgs 1 3 1) + 1 /\
  right (buildArgs 1 3 1) < Z.of_nat (length (A five)) /\
  right (buildArgs 1 3 1) < Z.of_nat (length (B five)) /\
  right (buildArgs 1 3 1) + 1 <= int_max /\
  int_min <= level (buildArgs 1 3 1) /\
  2 <= int_max /\
  (2 ^ S (Z.to_nat (2 - level (buildArgs 1 3 1))) - 1 <= 3)%nat /\
  all_runs 3
    (fun st' =>
       run (my_mergesort key_int 1 3) five = Some (tt, st') /\
       ascending key_int (slice 1 3 (A st')) /\
       Permutation (slice 1 3 (A five)) (slice 1 3 (A st')) /\
       (forall c, with_key key_int c (slice 1 3 (A st'))
                  = with_key key_int c (slice 1 3 (A five))) /\
       (forall b i, ~ 1 <= i <= 3 -> load b i st' = load b i five))
    (Run (parallel_mergesort key_int 2 (buildArgs 1 3 1))) five.
Proof.
  assert (0 <= left (buildArgs 1 3 1)) as H0 by (simpl; lia).
  assert (left (buildArgs 1 3 1) <= right (buildArgs 1 3 1) + 1) as H1
    by (simpl; lia).
  assert (right (buildArgs 1 3 1) < Z.of_nat (length (A five))) as HA
    by (simpl; lia).
  assert (right (buildArgs 1 3 1) < Z.of_nat (length (B five))) as HB
    by (simpl; lia).
  assert (right (buildArgs 1 3 1) + 1 <= int_max) as H2
    by (unfold int_max; simpl; lia).
  assert (int_min <= level (buildArgs 1 3 1)) as H3
    by (unfold int_min; simpl; lia).
  assert (2 <= int_max) as H4 by (unfold int_max; lia).
  assert (2 ^ S (Z.to_nat (2 - level (buildArgs 1 3 1))) - 1 <= 3)%nat
    as Hcap by (simpl; lia).
  repeat (split; [assumption|]).
  exact (@parallel_mergesort_sorts_range Z key_int 3 2 (buildArgs 1 3 1) five
           H0 H1 HA HB H2 H3 H4 Hcap).
Defined.

Lemma parallel_mergesort_stays_in_range_witness :
  steps (Run (parallel_mergesort key_int 2 (buildArgs 0 4 0))) five
        (Join (Run (parallel_mergesort key_int 2 (leftArg (buildArgs 0 4 0))))
              (Run (parallel_mergesort key_int 2 (rightArg (buildArgs 0 4 0))))
              (merge key_int 0 2 3 4))
        five /\
  (forall b i w,
     access (Join (Run (parallel_mergesort key_int 2
                          (leftArg (buildArgs 0 4 0))))
                  (Run (parallel_mergesort key_int 2
                          (rightArg (buildArgs 0 4 0))))
                  (merge key_int 0 2 3 4)) b i w ->
     0 <= i <= 4) /\
  ~ racy (Join (Run (parallel_mergesort key_int 2 (leftArg (buildArgs 0 4 0))))
               (Run (parallel_mergesort key_int 2 (rightArg (buildArgs 0 4 0))))
               (merge key_int 0 2 3 4)) /\
  (forall b i, ~ 0 <= i <= 4 -> load b i five = load b i five).
Proof.
  assert (steps (Run (parallel_mergesort key_int 2 (buildArgs 0 4 0))) five
            (Join (Run (parallel_mergesort key_int 2
                          (leftArg (buildArgs 0 4 0))))
                  (Run (parallel_mergesort key_int 2
                          (rightArg (buildArgs 0 4 0))))
                  (merge key_int 0 2 3 4))
            five) as Hsteps.
  { eapply steps_cons; [|apply steps_refl].
    rewrite (parallel_mergesort_eq key_int 2 (buildArgs 0 4 0)).
    apply step_fork. }
  split; [exact Hsteps|].
  exact (@parallel_mergesort_stays_in_range Z key_int 2 (buildArgs 0 4 0)
           five _ five Hsteps).
Defined.

Lemma parallel_mergesort_thread_bound_witness :
  steps (Run (parallel_mergesort key_int 2 (buildArgs 0 4 0))) five
        (Join (Run (parallel_mergesort key_int 2 (leftArg (buildArgs 0 4 0))))
              (Run (parallel_mergesort key_int 2 (rightArg (buildArgs 0 4 0))))
              (merge key_int 0 2 3 4))
        five /\
  (running
     (Join (Run (parallel_mergesort key_int 2 (leftArg (buildArgs 0 4 0))))
           (Run (parallel_mergesort key_int 2 (rightArg (buildArgs 0 4 0))))
           (merge key_int 0 2 3 4))
   <= 2 ^ Z.to_nat (2 - 0))%nat.
Proof.
  assert (steps (Run (parallel_mergesort key_int 2 (buildArgs 0 4 0))) five
            (Join (Run (parallel_mergesort key_int 2
                          (leftArg (buildArgs 0 4 0))))
                  (Run (parallel_mergesort key_int 2
                          (rightArg (buildArgs 0 4 0))))
                  (merge key_int 0 2 3 4))
            five) as Hsteps.
  { eapply steps_cons; [|apply steps_refl].
    rewrite (parallel_mergesort_eq key_int 2 (buildArgs 0 4 0)).
    apply step_fork. }
  split; [exact Hsteps|].
  exact (proj1 (@parallel_mergesort_thread_bound Z key_int 2
                  (buildArgs 0 4 0) five _ five Hsteps)).
Defined.

Lemma is_sorted_correct_witness :
  int_min < 5 <= int_max /\
  5 <= Z.of_nat (length (A five)) /\
  exists b,
    run (is_sorted key_int 5) five = Some (b, five) /\
    (b = true <-> sorted_range key_int 0 (5 - 1) (A five)).
Proof.
  assert (int_min < 5 <= int_max) as H0 by (unfold int_min, int_max; lia).
  assert (5 <= Z.of_nat (length (A five))) as H1 by (simpl; lia).
  repeat (split; [assumption|]).
  exact (@is_sorted_correct Z key_int five 5 H0 H1).
Defined.

Lemma is_sorted_past_end_witness :
  Z.of_nat (length (A ordered)) < 6 /\
  2 <= 6 /\
  run (is_sorted key_int 6) ordered <> Some (true, ordered).
Proof.
  assert (Z.of_nat (length (A ordered)) < 6) as H0 by (simpl; lia).
  assert (2 <= 6) as H1 by lia.
  repeat (split; [assumption|]).
  exact (@is_sorted_past_end Z key_int ordered ordered 6 H0 H1).
Defined.

Lemma sort_then_is_sorted_witness :
  5 = Z.of_nat (length (A five)) /\
  5 <= int_max /\
  length (B five) = length (A five) /\
  2 <= int_max /\
  (2 ^ S (Z.to_nat 2) - 1 <= 7)%nat /\
  all_runs 7 (fun st' => run (is_sorted key_int 5) st' = Some (true, st'))
           (Run (parallel_mergesort key_int 2 (buildArgs 0 (5 - 1) 0))) five.
Proof.
  assert (5 <= int_max) as HN by (unfold int_max; lia).
  assert (2 <= int_max) as Hc by (unfold int_max; lia).
  assert (2 ^ S (Z.to_nat 2) - 1 <= 7)%nat as Hcap by (simpl; lia).
  repeat (split; [assumption || reflexivity|]).
  exact (@sort_then_is_sorted Z key_int 7 2 five 5
           eq_refl HN eq_refl Hc Hcap).
Defined.

Lemma sort_twice_witness :
  5 = Z.of_nat (length (A five)) /\
  5 <= int_max /\
  length (B five) = length (A five) /\
  0 <= int_max /\
  2 <= int_max /\
  (2 ^ S (Z.to_nat 0) - 1 <= 7)%nat /\
  (2 ^ S (Z.to_nat 2) - 1 <= 7)%nat /\
  all_runs 7
    (fun st1 =>
       all_runs 7 (fun st2 => A st2 = A st1)
                (Run (parallel_mergesort key_int 2 (buildArgs 0 (5 - 1) 0)))
                st1)
    (Run (parallel_mergesort key_int 0 (buildArgs 0 (5 - 1) 0))) five.
Proof.
  assert (5 <= int_max) as HN by (unfold int_max; lia).
  assert (0 <= int_max) as H0 by (unfold int_max; lia).
  assert (2 <= int_max) as H2 by (unfold int_max; lia).
  assert (2 ^ S (Z.to_nat 0) - 1 <= 7)%nat as Hcap0 by (simpl; lia).
  assert (2 ^ S (Z.to_nat 2) - 1 <= 7)%nat as Hcap2 by (simpl; lia).
  repeat (split; [assumption || reflexivity|]).
  exact (@sort_twice Z key_int 7 0 2 five 5
           eq_refl HN eq_refl H0 H2 Hcap0 Hcap2).
Defined.

Lemma scratch_after_sort_witness :
  5 = Z.of_nat (length (A five)) /\
  5 <= int_max /\
  length (B five) = length (A five) /\
  2 <= int_max /\
  (2 ^ S (Z.to_nat 2) - 1 <= 7)%nat /\
  all_runs 7 (fun st' => (2 <= 5 -> B st' = A st') /\ (5 <= 1 -> st' = five))
           (Run (parallel_mergesort key_int 2 (buildArgs 0 (5 - 1) 0))) five.
Proof.
  assert (5 <= int_max) as HN by (unfold int_max; lia).
  assert (2 <= int_max) as Hc by (unfold int_max; lia).
  assert (2 ^ S (Z.to_nat 2) - 1 <= 7)%nat as Hcap by (simpl; lia).
  repeat (split; [assumption || reflexivity|]).
  exact (@scratch_after_sort Z key_int 7 2 five 5
           eq_refl HN eq_refl Hc Hcap).
Defined.

Lemma parallel_mergesort_safe_iff_witness :
  left (buildArgs 0 4 0) < right (buildArgs 0 4 0) /\
  right (buildArgs 0 4 0) + 1 <= int_max /\
  int_min <= level (buildArgs 0 4 0) /\
  2 <= int_max /\
  (2 ^ S (Z.to_nat (2 - level (buildArgs 0 4 0))) - 1 <= 7)%nat /\
  (all_runs 7 (fun _ => True)
            (Run (parallel_mergesort key_int 2 (buildArgs 0 4 0))) five
   <->
   0 <= left (buildArgs 0 4 0) /\
   right (buildArgs 0 4 0) < Z.of_nat (length (A five)) /\
   right (buildArgs 0 4 0) < Z.of_nat (length (B five))).
Proof.
  assert (left (buildArgs 0 4 0) < right (buildArgs 0 4 0)) as H0
    by (simpl; lia).
  assert (right (buildArgs 0 4 0) + 1 <= int_max) as H1
    by (unfold int_max; simpl; lia).
  assert (int_min <= level (buildArgs 0 4 0)) as H2
    by (unfold int_min; simpl; lia).
  assert (2 <= int_max) as H3 by (unfold int_max; lia).
  assert (2 ^ S (Z.to_nat (2 - level (buildArgs 0 4 0))) - 1 <= 7)%nat
    as Hcap by (simpl; lia).
  repeat (split; [assumption|]).
  exact (@parallel_mergesort_safe_iff Z key_int 7 2 (buildArgs 0 4 0) five
           H0 H1 H2 H3 Hcap).
Defined.

(** The scenarios of the test driver, executed. *)

Example scenario_serial :
  run (parallel_mergesort key_int 0 (buildArgs 0 4 0)) five
  = Some (tt, {| A := [1; 2; 3; 4; 5]; B := [1; 2; 3; 4; 5] |}).
Proof. vm_compute. reflexivity. Qed.

Example scenario_two :
  run (parallel_mergesort key_int 1 (buildArgs 0 1 0))
      {| A := [10; 5]; B := [0; 0] |}
  = Some (tt, {| A := [5; 10]; B := [5; 10] |}).
Proof. vm_compute. reflexivity. Qed.

Example scenario_parallel :
  option_map (fun x => A (snd x))
    (run (parallel_mergesort key_int 2 (buildArgs 0 99 0))
         {| A := map (fun i => 100 - Z.of_nat i) (seq 0 100);
            B := repeat 0 100 |})
  = Some (map (fun i => Z.of_nat i) (seq 1 100)).
Proof. vm_compute. reflexivity. Qed.

Example scenario_stable :
  option_map (fun x => A (snd x)) (run (merge fst 0 2 3 4) tagged)
  = Some [(1, 0%nat); (1, 3%nat); (2, 1%nat); (2, 2%nat); (2, 4%nat)].
Proof. vm_compute. reflexivity. Qed.

Example scenario_out_of_bounds :
  run (merge key_int 0 2 3 5) five = None.
Proof. vm_compute. reflexivity. Qed.

(** Two cells, cutoff 1, and a process that can hold two threads: the
    second [pthread_create] fails and the join that follows is
    undefined. *)
Example scenario_no_room :
  ~ all_runs 2 (fun _ => True)
             (Run (parallel_mergesort key_int 1 (buildArgs 0 1 0)))
             {| A := [10; 5]; B := [0; 0] |}.
Proof.
  apply fan_out_without_room;
    unfold int_min, int_max; simpl; lia.
Qed.

End Examples.
